(** * Movie-Roulette: TV discovery subsystem

    A shallow embedding of
    - [utils/tv/base/tv_discovery.py]   ([TVDiscoveryBase], [TVDiscoveryFactory])
    - [utils/tv/discovery/webos_discovery.py]  ([WebOSDiscovery])
    together with the properties of the network scan, of the reachability
    probe and of the discovery factory.

    Conventions of the embedding.
    - Python [str] values are [string]s; the case conversions and the
      white-space classes are those of the code points below 128, which is
      what [arp-scan] prints.
    - A Python call that may raise is a value of [result A]: [inl e] is the
      raised exception, [inr v] the returned value.  Only subclasses of
      [Exception] are modelled ([KeyboardInterrupt] and task cancellation are
      outside the model).
    - Calls to [logger] have no effect on the values computed and are left
      out. *)

From stdpp Require Import base option list gmap strings.
From Stdlib Require Import Ascii ZArith Lia.

Local Open Scope string_scope.
Local Open Scope list_scope.

(** ** Python values and built-in string methods *)

Module Py.

Inductive exn : Type :=
| CalledProcessError (returncode : Z)
| FileNotFoundError (what : string)
| TypeError (msg : string)
| NameError (name : string)
| socket_herror
| OtherException (msg : string).

Definition result (A : Type) : Type := (exn + A)%type.

Definition TAB : ascii := ascii_of_nat 9.
Definition LF : ascii := ascii_of_nat 10.
Definition CR : ascii := ascii_of_nat 13.

(** [str.isspace] on one character. *)
Definition isspace (c : ascii) : bool :=
  let n := nat_of_ascii c in
  (((9 <=? n) && (n <=? 13)) || ((28 <=? n) && (n <=? 32)))%nat.

(** The line boundaries of [str.splitlines]. *)
Definition is_linebreak (c : ascii) : bool :=
  let n := nat_of_ascii c in
  (((10 <=? n) && (n <=? 13)) || ((28 <=? n) && (n <=? 30)))%nat.

Definition upper_char (c : ascii) : ascii :=
  let n := nat_of_ascii c in
  if ((97 <=? n) && (n <=? 122))%nat then ascii_of_nat (n - 32) else c.

Definition lower_char (c : ascii) : ascii :=
  let n := nat_of_ascii c in
  if ((65 <=? n) && (n <=? 90))%nat then ascii_of_nat (n + 32) else c.

Fixpoint map_str (f : ascii -> ascii) (s : string) : string :=
  match s with
  | EmptyString => EmptyString
  | String c s' => String (f c) (map_str f s')
  end.

(** [s.upper()] and [s.lower()] *)
Definition upper : string -> string := map_str upper_char.
Definition lower : string -> string := map_str lower_char.

(** [s[:n]] *)
Fixpoint slice_to (n : nat) (s : string) : string :=
  match n, s with
  | S n', String c s' => String c (slice_to n' s')
  | _, _ => EmptyString
  end.

Fixpoint lstrip (s : string) : string :=
  match s with
  | String c s' => if isspace c then lstrip s' else s
  | EmptyString => EmptyString
  end.

Definition rstrip (s : string) : string := String.rev (lstrip (String.rev s)).

(** [s.strip()] *)
Definition strip (s : string) : string := rstrip (lstrip s).

(** [s.split(sep)] for a one-character separator: every occurrence of the
    separator cuts, and empty fields are kept. *)
Fixpoint split (sep : ascii) (s : string) : list string :=
  match s with
  | EmptyString => [EmptyString]
  | String c s' =>
      if Ascii.eqb c sep then EmptyString :: split sep s'
      else match split sep s' with
           | field :: fields => String c field :: fields
           | [] => [String c EmptyString]
           end
  end.

(** [sub in s] *)
Fixpoint contains (sub s : string) : bool :=
  String.prefix sub s
  || match s with
     | EmptyString => false
     | String _ s' => contains sub s'
     end.

(** [s.splitlines()]: [cur] is the line being read, reversed.  A CR LF pair
    is one boundary, and a final boundary opens no further line. *)
Fixpoint splitlines_from (cur : string) (s : string) : list string :=
  match s with
  | EmptyString =>
      match cur with
      | EmptyString => []
      | _ => [String.rev cur]
      end
  | String c s' =>
      if is_linebreak c then
        String.rev cur ::
          match s' with
          | String c' s'' =>
              if Ascii.eqb c CR && Ascii.eqb c' LF
              then splitlines_from EmptyString s''
              else splitlines_from EmptyString s'
          | EmptyString => []
          end
      else splitlines_from (String c cur) s'
  end.

Definition splitlines (s : string) : list string :=
  splitlines_from EmptyString s.

(** [bool(x)] for an optional string: [None] and [''] are false. *)
Definition truthy (x : option string) : bool :=
  match x with
  | Some s => negb (String.eqb s EmptyString)
  | None => false
  end.

(** A computation that calls out: the calls made, in order, and either the
    exception that ended it or its value. *)
Definition Traced (E A : Type) : Type := (list E * result A)%type.

Definition ret {E A} (a : A) : Traced E A := ([], inr a).

Definition raise {E A} (e : exn) : Traced E A := ([], inl e).

Definition bind {E A B} (m : Traced E A) (k : A -> Traced E B) : Traced E B :=
  match m with
  | (calls, inl e) => (calls, inl e)
  | (calls, inr a) => let (calls', r) := k a in (calls ++ calls', r)
  end.

(** [try: m  except Exception: handler] *)
Definition try_except {E A} (m : Traced E A) (handler : exn -> Traced E A)
    : Traced E A :=
  match m with
  | (calls, inl e) => let (calls', r) := handler e in (calls ++ calls', r)
  | (calls, inr a) => (calls, inr a)
  end.

Notation "'do' x <- m ; k" := (bind m (fun x => k))
  (at level 10, x name, m at level 100, k at level 200,
   format "'[v' 'do'  x  <-  m ; '/' k ']'").

End Py.

Import Py.

(** ** [TVDiscoveryBase]: the shared network scan *)

Module TVDiscovery.

(** The dictionary built for each accepted device, one field per key of
    the literal in [scan_network]. *)
Record Device : Type := {
  dev_ip : string;
  dev_mac : string;
  dev_description : string;
  dev_device_type : string;
  dev_untested : bool;
  dev_warning : option string
}.

(** The methods a vendor class supplies to [TVDiscoveryBase].
    [_is_tv_device] and [_enrich_device_info] run vendor code on scan data
    and may raise; the latter stands for the dictionary after the hook has
    updated it in place. *)
Record TVDiscoveryBase : Type := {
  get_name : string;
  get_mac_prefixes : gmap string string;
  get_warning_message : option string;
  _is_tv_device : option string -> result bool;
  _enrich_device_info : Device -> result Device
}.

(** The defaults of the base class. *)
Definition base_get_warning_message : option string := None.
Definition base_enrich_device_info (device : Device) : result Device :=
  inr device.

(** What a scan calls on the vendor class, in call order. *)
Inductive HookCall : Type :=
| Call_is_tv_device (description : option string)
| Call_enrich_device_info (device : Device).

(** A computation of the scan, with the hook calls it makes. *)
Definition Scan (A : Type) : Type := Traced HookCall A.

Definition call_is_tv_device (self : TVDiscoveryBase)
    (desc : option string) : Scan bool :=
  ([Call_is_tv_device desc], _is_tv_device self desc).

Definition call_enrich_device_info (self : TVDiscoveryBase)
    (device : Device) : Scan Device :=
  ([Call_enrich_device_info device], _enrich_device_info self device).

(** What the external world hands to one scan: the value found in the
    settings under clients/tvs/blacklist/mac_addresses, or the exception of
    that lookup, and how the [arp-scan] process ended. *)
Inductive ArpScan : Type :=
| ToolMissing
| Exited (returncode : Z) (stdout : string)
| RunFailed (e : exn).

Record ScanEnv : Type := {
  blacklisted_macs : result (list string);
  arp_scan : ArpScan
}.

(** [subprocess.run(['arp-scan', '--localnet'], capture_output=True,
    text=True, check=True).stdout] *)
Definition subprocess_run (p : ArpScan) : result string :=
  match p with
  | ToolMissing => inl (FileNotFoundError "arp-scan")
  | Exited 0 stdout => inr stdout
  | Exited returncode _ => inl (CalledProcessError returncode)
  | RunFailed e => inl e
  end.

(** [line.strip().split('\t')] read as [ip, mac, desc], for a line that has
    a tab and at least two fields. *)
Definition parse_line (line : string)
    : option (string * string * option string) :=
  if negb (contains (String TAB EmptyString) line) then None
  else
    match split TAB (strip line) with
    | ip :: mac :: rest => Some (ip, mac, head rest)
    | _ => None
    end.

(** [mac.lower() in (addr.lower() for addr in blacklisted_macs)] *)
Definition is_blacklisted (blacklist : list string) (mac : string) : bool :=
  bool_decide (lower mac ∈ map lower blacklist).

(** [mac.upper()[:8]] *)
Definition mac_prefix_of (mac : string) : string := slice_to 8 (upper mac).

(** [d.get(key, default)] *)
Definition dict_get (d : gmap string string) (key fallback : string)
    : string :=
  default fallback (d !! key).

(** [desc or fallback] *)
Definition desc_or (desc : option string) (fallback : string) : string :=
  match desc with
  | Some d => if String.eqb d EmptyString then fallback else d
  | None => fallback
  end.

(** The dictionary literal of [scan_network]. *)
Definition make_device (self : TVDiscoveryBase)
    (ip mac : string) (desc : option string) : Device :=
  let mac_prefix := mac_prefix_of mac in
  let warning_msg := get_warning_message self in
  {| dev_ip := ip;
     dev_mac := mac;
     dev_description :=
       desc_or desc
         (dict_get (get_mac_prefixes self) mac_prefix
            (get_name self +:+ " Device"));
     dev_device_type :=
       dict_get (get_mac_prefixes self) mac_prefix
         ("Unknown " +:+ get_name self +:+ " Model");
     dev_untested := truthy warning_msg;
     dev_warning := warning_msg |}.

(** The part of the loop body that follows the parsing of a line. *)
Definition scan_triple (self : TVDiscoveryBase) (blacklist : list string)
    (devices : list Device) (ip mac : string) (desc : option string)
    : Scan (list Device) :=
  if is_blacklisted blacklist mac then ret devices
  else
    let mac_prefix := mac_prefix_of mac in
    do is_tv <- (if bool_decide (mac_prefix ∈ dom (get_mac_prefixes self))
                 then ret true
                 else call_is_tv_device self desc);
    if is_tv : bool then
      do device <- call_enrich_device_info self
                     (make_device self ip mac desc);
      ret (devices ++ [device])
    else ret devices.

(** One iteration of [for line in result.stdout.splitlines()]. *)
Definition scan_line (self : TVDiscoveryBase) (blacklist : list string)
    (devices : list Device) (line : string) : Scan (list Device) :=
  match parse_line line with
  | Some (ip, mac, desc) => scan_triple self blacklist devices ip mac desc
  | None => ret devices
  end.

Fixpoint scan_lines (self : TVDiscoveryBase) (blacklist : list string)
    (devices : list Device) (lines : list string) : Scan (list Device) :=
  match lines with
  | [] => ret devices
  | line :: lines' =>
      do devices' <- scan_line self blacklist devices line;
      scan_lines self blacklist devices' lines'
  end.

(** The body of the [try] of [scan_network]. *)
Definition scan_network_try (self : TVDiscoveryBase) (env : ScanEnv)
    : Scan (list Device) :=
  do blacklist <- ([], blacklisted_macs env);
  do stdout <- ([], subprocess_run (arp_scan env));
  scan_lines self blacklist [] (splitlines stdout).

(** [scan_network]: both handlers return the empty list. *)
Definition scan_network (self : TVDiscoveryBase) (env : ScanEnv)
    : Scan (list Device) :=
  try_except (scan_network_try self env)
    (fun e =>
       match e with
       | CalledProcessError _ => ret []
       | _ => ret []
       end).

End TVDiscovery.

Import TVDiscovery.

(** ** [WebOSDiscovery] *)

Module WebOS.

(** The dictionary literal returned by [get_mac_prefixes], in source
    order. *)
Definition mac_prefix_items : list (string * string) :=
  [
    ("00:E0:70", "LG Electronics");
    ("00:1C:62", "LG Electronics");
    ("00:1E:75", "LG Electronics");
    ("00:1F:6B", "LG Electronics");
    ("00:1F:E3", "LG Electronics");
    ("00:22:A9", "LG Electronics");
    ("00:24:83", "LG Electronics");
    ("00:25:E5", "LG Electronics");
    ("00:26:E2", "LG Electronics");
    ("00:34:DA", "LG Electronics");
    ("00:3A:AF", "LG Electronics");
    ("00:50:BA", "LG Electronics");
    ("00:52:A1", "LG Electronics");
    ("00:AA:70", "LG Electronics");
    ("00:5A:13", "LG WebOS TV");
    ("00:C0:38", "LG TV");
    ("04:4E:5A", "LG WebOS TV");
    ("08:D4:6A", "LG TV");
    ("10:68:3F", "LG Electronics TV");
    ("10:F1:F2", "LG TV");
    ("10:F9:6F", "LG Electronics TV");
    ("2C:54:CF", "LG Electronics TV");
    ("2C:59:8A", "LG Electronics TV");
    ("34:4D:F7", "LG Electronics TV");
    ("38:8C:50", "LG Electronics TV");
    ("3C:BD:D8", "LG Electronics TV");
    ("40:B0:FA", "LG Electronics TV");
    ("48:59:29", "LG Electronics TV");
    ("50:55:27", "LG Electronics TV");
    ("58:A2:B5", "LG Electronics TV");
    ("60:E3:AC", "LG Electronics TV");
    ("64:99:5D", "LG Electronics TV");
    ("6C:DD:BC", "LG Electronics TV");
    ("70:91:8F", "LG Electronics TV");
    ("74:A5:28", "LG Electronics TV");
    ("78:5D:C8", "LG Electronics TV");
    ("7C:1C:4E", "LG Electronics TV");
    ("7C:AB:25", "LG WebOS TV");
    ("88:36:6C", "LG Electronics TV");
    ("8C:3C:4A", "LG Electronics TV");
    ("98:93:CC", "LG Electronics TV");
    ("98:D6:F7", "LG Electronics TV");
    ("A0:39:F7", "LG Electronics TV");
    ("A8:16:B2", "LG Electronics TV");
    ("A8:23:FE", "LG Electronics TV");
    ("AC:0D:1B", "LG Electronics TV");
    ("B4:0E:DC", "LG Smart TV");
    ("B4:E6:2A", "LG Electronics TV");
    ("B8:1D:AA", "LG Electronics TV");
    ("B8:AD:3E", "LG Electronics TV");
    ("BC:8C:CD", "LG Smart TV");
    ("BC:F5:AC", "LG Electronics TV");
    ("C4:36:6C", "LG Electronics TV");
    ("C4:9A:02", "LG Smart TV");
    ("C8:02:8F", "LG Electronics TV");
    ("C8:08:E9", "LG Electronics TV");
    ("CC:2D:8C", "LG Electronics TV");
    ("CC:FA:00", "LG Electronics TV");
    ("D0:13:FD", "LG Electronics TV");
    ("D8:4D:2C", "LG Electronics TV");
    ("DC:0B:34", "LG Electronics TV");
    ("E8:5B:5B", "LG Electronics TV");
    ("E8:F2:E2", "LG Electronics TV");
    ("F0:1C:13", "LG Electronics TV");
    ("F8:0C:F3", "LG Electronics TV");
    ("FC:4D:8C", "LG WebOS TV")
  ].

Definition get_mac_prefixes : gmap string string :=
  list_to_map mac_prefix_items.

Definition get_name : string := "LG WebOS".

(** ['LG Electronics' in desc or 'WebOS' in desc]: the [in] operator
    raises [TypeError] when its right operand is [None]. *)
Definition _is_tv_device (desc : option string) : result bool :=
  match desc with
  | None => inl (TypeError "argument of type 'NoneType' is not iterable")
  | Some d => inr (contains "LG Electronics" d || contains "WebOS" d)
  end.

Definition get_warning_message : option string := None.

(** The class: [_enrich_device_info] is inherited from the base. *)
Definition WebOSDiscovery : TVDiscoveryBase :=
  {| TVDiscovery.get_name := get_name;
     TVDiscovery.get_mac_prefixes := get_mac_prefixes;
     TVDiscovery.get_warning_message := get_warning_message;
     TVDiscovery._is_tv_device := _is_tv_device;
     TVDiscovery._enrich_device_info := base_enrich_device_info |}.

(** *** [test_connection] *)

(** The network as one probe sees it.  [nc ip port] is
    [create_subprocess_exec('nc', '-zv', '-w1', ip, port)] followed by
    [communicate()]: the return code of the process, or the exception of
    the launch (the tool is not installed, ...).  [connect_ex ip port] is
    the creation of a TCP socket with a one second timeout followed by
    [connect_ex((ip, port))] and [close()].  [gethostbyaddr ip] is the
    reverse lookup, which raises [socket.herror] for an unknown host. *)
Record ProbeEnv : Type := {
  nc : string -> string -> result Z;
  connect_ex : string -> Z -> result Z;
  gethostbyaddr : string -> result unit
}.

(** The calls that reach the outside. *)
Inductive SysCall : Type :=
| Sys_nc (ip port : string)
| Sys_connect_ex (ip : string) (port : Z)
| Sys_gethostbyaddr (ip : string).

Definition Probe (A : Type) : Type := Traced SysCall A.

(** The names bound at the top level of [webos_discovery.py]: its four
    imports, [logger] and the class. *)
Definition module_globals : list string :=
  ["logging"; "asyncio"; "Optional"; "Dict";
   "TVDiscoveryBase"; "TVDiscoveryFactory"; "logger"; "WebOSDiscovery"].

(** The evaluation of a global name inside a method body. *)
Definition load_global (globals : list string) (name : string) : Probe unit :=
  if bool_decide (name ∈ globals) then ret () else raise (NameError name).

Definition ports : list string := ["3000"; "3001"; "8080"; "8001"; "8002"].
Definition webos_ports : list Z := [3000; 3001; 8080; 8001; 8002]%Z.

(** The loop of [_test_connection_nc]; a return code of 0 leaves it. *)
Fixpoint nc_loop (env : ProbeEnv) (ip : string) (ports : list string)
    : Probe bool :=
  match ports with
  | [] => ret false
  | port :: ports' =>
      do returncode <- ([Sys_nc ip port], nc env ip port);
      if Z.eqb returncode 0 then ret true else nc_loop env ip ports'
  end.

Definition _test_connection_nc (env : ProbeEnv) (ip : string) : Probe bool :=
  try_except (nc_loop env ip ports) (fun _ => ret false).

(** The body of the inner [try] of the socket loop, up to the value of
    [result]. *)
Definition socket_attempt (globals : list string) (env : ProbeEnv)
    (ip : string) (port : Z) : Probe Z :=
  do _ <- load_global globals "socket";
  ([Sys_connect_ex ip port], connect_ex env ip port).

(** [for port in webos_ports]: the value is [true] when the loop was left
    by [return True]. *)
Fixpoint socket_loop (globals : list string) (env : ProbeEnv) (ip : string)
    (ports : list Z) : Probe bool :=
  match ports with
  | [] => ret false
  | port :: ports' =>
      do connected <-
        try_except
          (do result <- socket_attempt globals env ip port;
           ret (Z.eqb result 0))
          (fun _ => ret false);
      if connected : bool then ret true
      else socket_loop globals env ip ports'
  end.

(** The body of the last [try]: [socket.gethostbyaddr(ip)]. *)
Definition resolve_attempt (globals : list string) (env : ProbeEnv)
    (ip : string) : Probe unit :=
  do _ <- load_global globals "socket";
  ([Sys_gethostbyaddr ip], gethostbyaddr env ip).

(** [except socket.herror: pass]: the class of the clause is evaluated
    when an exception arrives; any other exception goes on. *)
Definition except_herror (globals : list string) (e : exn) : Probe bool :=
  do _ <- load_global globals "socket";
  match e with
  | socket_herror => ret false
  | _ => raise e
  end.

Definition test_connection_in (globals : list string) (env : ProbeEnv)
    (ip : string) : Probe bool :=
  try_except
    (do result <- _test_connection_nc env ip;
     if result : bool then ret true
     else
       do connected <- socket_loop globals env ip webos_ports;
       if connected : bool then ret true
       else
         try_except
           (do _ <- resolve_attempt globals env ip; ret true)
           (except_herror globals))
    (fun _ => ret false).

Definition test_connection : ProbeEnv -> string -> Probe bool :=
  test_connection_in module_globals.

End WebOS.

(** ** [TVDiscoveryFactory] *)

Module Factory.

Inductive DiscoveryClass : Type :=
| WebOSDiscovery
| TizenDiscovery
| AndroidDiscovery.

(** An object: its identity and its class. *)
Record Instance : Type := {
  inst_id : nat;
  inst_class : DiscoveryClass
}.

(** The interpreter state the factory works on: the class attribute
    [_discoveries], the discovery modules already imported, and the
    instances constructed so far, oldest first. *)
Record Interp : Type := {
  _discoveries : gmap string Instance;
  imported : list DiscoveryClass;
  constructed : list Instance
}.

Definition tv_type_of (c : DiscoveryClass) : string :=
  match c with
  | WebOSDiscovery => "webos"
  | TizenDiscovery => "tizen"
  | AndroidDiscovery => "android"
  end.

#[global] Instance DiscoveryClass_eq_dec : EqDecision DiscoveryClass.
Proof. solve_decision. Defined.

(** [cls()]: a new object, whose identity no earlier object has. *)
Definition construct (c : DiscoveryClass) (st : Interp) : Instance * Interp :=
  let obj := {| inst_id := length (constructed st); inst_class := c |} in
  (obj, {| _discoveries := _discoveries st;
           imported := imported st;
           constructed := constructed st ++ [obj] |}).

(** [TVDiscoveryFactory.register] *)
Definition register (tv_type : string) (discovery_class : Instance)
    (st : Interp) : Interp :=
  {| _discoveries := <[tv_type := discovery_class]> (_discoveries st);
     imported := imported st;
     constructed := constructed st |}.

Section Modules.

(** [tizen_discovery.py] and [android_discovery.py] are not embedded
    here.  What matters of them is whether, like
    [webos_discovery.py], they end with a registration of an instance of
    their class. *)
Variable tizen_registers : bool.
Variable android_registers : bool.

Definition registers_on_import (c : DiscoveryClass) : bool :=
  match c with
  | WebOSDiscovery => true
  | TizenDiscovery => tizen_registers
  | AndroidDiscovery => android_registers
  end.

(** [from ..discovery.<module> import <class>]: the first import of a
    module runs its body. *)
Definition import_module (c : DiscoveryClass) (st : Interp) : Interp :=
  if bool_decide (c ∈ imported st) then st
  else
    let st1 := {| _discoveries := _discoveries st;
                  imported := c :: imported st;
                  constructed := constructed st |} in
    if registers_on_import c then
      let (obj, st2) := construct c st1 in
      register (tv_type_of c) obj st2
    else st1.

(** One branch of [get_discovery]: import, construct, register. *)
Definition lazy_register (c : DiscoveryClass) (st : Interp) : Interp :=
  let st1 := import_module c st in
  let (obj, st2) := construct c st1 in
  register (tv_type_of c) obj st2.

Definition get_discovery (tv_type : string) (st : Interp)
    : option Instance * Interp :=
  let st' :=
    if bool_decide (tv_type ∈ dom (_discoveries st)) then st
    else if String.eqb tv_type "webos" then lazy_register WebOSDiscovery st
    else if String.eqb tv_type "tizen" then lazy_register TizenDiscovery st
    else if String.eqb tv_type "android"
         then lazy_register AndroidDiscovery st
    else st in
  (_discoveries st' !! tv_type, st').

End Modules.

(** A fresh interpreter: nothing imported, nothing registered. *)
Definition fresh : Interp :=
  {| _discoveries := ∅; imported := []; constructed := [] |}.

End Factory.

(** ** Vocabulary of the statements *)

(** Where a hook call of one loop iteration comes from. *)
Definition call_of_triple (self : TVDiscoveryBase) (blacklist : list string)
    (ip mac : string) (desc : option string) (c : HookCall) : Prop :=
  is_blacklisted blacklist mac = false ∧
  match c with
  | Call_is_tv_device desc' =>
      desc' = desc ∧ mac_prefix_of mac ∉ dom (get_mac_prefixes self)
  | Call_enrich_device_info device =>
      device = make_device self ip mac desc ∧
      (mac_prefix_of mac ∈ dom (get_mac_prefixes self)
       ∨ _is_tv_device self desc = inr true)
  end.

Definition call_of_line (self : TVDiscoveryBase) (blacklist : list string)
    (line : string) (c : HookCall) : Prop :=
  ∃ ip mac desc,
    parse_line line = Some (ip, mac, desc) ∧
    call_of_triple self blacklist ip mac desc c.

(** What the loop may do to the list: append dictionaries, each of them the
    outcome of an enrichment call of the trace. *)
Definition appended (self : TVDiscoveryBase) (calls : list HookCall)
    (devices devices' : list Device) : Prop :=
  ∃ added, devices' = devices ++ added ∧
    ∀ d, d ∈ added ->
      ∃ d0, Call_enrich_device_info d0 ∈ calls ∧
            _enrich_device_info self d0 = inr d.

(** A line whose second field is in the blacklist. *)
Definition line_blacklisted (blacklist : list string) (line : string) : bool :=
  match parse_line line with
  | Some (_, mac, _) => is_blacklisted blacklist mac
  | None => false
  end.

(** The verdict of each of the three methods, read off the value of its
    attempt. *)
Definition succeeded (r : result bool) : bool :=
  match r with inr true => true | _ => false end.

Definition connected (r : result Z) : bool :=
  match r with inr 0%Z => true | _ => false end.

Definition resolved (r : result unit) : bool :=
  match r with inr _ => true | inl _ => false end.

(** [nc] is not installed, port 3000 accepts a TCP connection, the other
    ports refuse it (errno 111), and the address has a name. *)
Definition env_nc_missing_port_3000_open : WebOS.ProbeEnv :=
  {| WebOS.nc := λ _ _, inl (FileNotFoundError "nc");
     WebOS.connect_ex := λ _ port, inr (if Z.eqb port 3000 then 0 else 111)%Z;
     WebOS.gethostbyaddr := λ _, inr () |}.

(** Nothing answers: [nc] exits with 1, every connection is refused, and
    the reverse lookup finds no host. *)
Definition env_unreachable : WebOS.ProbeEnv :=
  {| WebOS.nc := λ _ _, inr 1%Z;
     WebOS.connect_ex := λ _ _, inr 111%Z;
     WebOS.gethostbyaddr := λ _, inl socket_herror |}.

(** [nc] is not installed and every connection is refused, but the
    address has a name. *)
Definition env_only_resolvable : WebOS.ProbeEnv :=
  {| WebOS.nc := λ _ _, inl (FileNotFoundError "nc");
     WebOS.connect_ex := λ _ _, inr 111%Z;
     WebOS.gethostbyaddr := λ _, inr () |}.

(** The instance that the import of the module of [c] constructs, if it
    runs the module body and the body registers one. *)
Definition constructed_on_import (tizen_registers android_registers : bool)
    (c : Factory.DiscoveryClass) (st : Factory.Interp)
    : list Factory.Instance :=
  if bool_decide (c ∈ Factory.imported st) then []
  else if Factory.registers_on_import tizen_registers android_registers c
       then [{| Factory.inst_id := length (Factory.constructed st);
                Factory.inst_class := c |}]
       else [].

(** The instance that the branch of [get_discovery] constructs. *)
Definition constructed_by_factory (tizen_registers android_registers : bool)
    (c : Factory.DiscoveryClass) (st : Factory.Interp) : Factory.Instance :=
  {| Factory.inst_id :=
       length (Factory.constructed st
               ++ constructed_on_import tizen_registers android_registers c st);
     Factory.inst_class := c |}.

(** ** Concrete scans and probes used below *)

(** A line of [arp-scan] output: two tab-separated fields and what
    follows them. *)
Definition arp_line (ip mac rest : string) : string :=
  ip +:+ String TAB mac +:+ rest.

Definition scan_env (blacklist : list string) (stdout : string) : ScanEnv :=
  {| blacklisted_macs := inr blacklist; arp_scan := Exited 0 stdout |}.

Definition lg_stdout : string :=
  arp_line "192.168.1.5" "7C:AB:25:11:22:33" (String TAB "My LG TV").

Definition lg_device : Device :=
  {| dev_ip := "192.168.1.5";
     dev_mac := "7C:AB:25:11:22:33";
     dev_description := "My LG TV";
     dev_device_type := "LG WebOS TV";
     dev_untested := false;
     dev_warning := None |}.

(** The same television as [arp-scan] prints it, in lower case. *)
Definition lg_stdout_lowercase : string :=
  arp_line "192.168.1.5" "7c:ab:25:11:22:33" (String TAB "My LG TV").

Definition lg_device_lowercase : Device :=
  {| dev_ip := "192.168.1.5";
     dev_mac := "7c:ab:25:11:22:33";
     dev_description := "My LG TV";
     dev_device_type := "LG WebOS TV";
     dev_untested := false;
     dev_warning := None |}.

(** The television followed by a host of another vendor for which
    [arp-scan] printed no third field. *)
Definition lg_then_bare_stdout : string :=
  lg_stdout +:+ String LF (arp_line "192.168.1.9" "AA:BB:CC:11:22:33" "").

(** ** [lgtv_control.py]: wake the television and launch an application *)

Module LGTVControl.

(** [ValueError] and [KeyError], with their message. *)
Definition ValueError (msg : string) : exn :=
  OtherException ("ValueError: " +:+ msg).

Definition KeyError (key : string) : exn :=
  OtherException ("KeyError: " +:+ key).

(** [s.replace(old, '')] for a one-character [old]. *)
Fixpoint remove_char (old : ascii) (s : string) : string :=
  match s with
  | EmptyString => EmptyString
  | String c s' =>
      if Ascii.eqb c old then remove_char old s'
      else String c (remove_char old s')
  end.

(** [s * n] *)
Fixpoint str_mul (s : string) (n : nat) : string :=
  match n with
  | O => EmptyString
  | S n' => s +:+ str_mul s n'
  end.

(** The value of a hexadecimal digit, in either case. *)
Definition hex_value (c : ascii) : option Z :=
  let n := nat_of_ascii c in
  if ((48 <=? n) && (n <=? 57))%nat then Some (Z.of_nat (n - 48))
  else if ((97 <=? n) && (n <=? 102))%nat then Some (Z.of_nat (n - 87))
  else if ((65 <=? n) && (n <=? 70))%nat then Some (Z.of_nat (n - 55))
  else None.

(** The white space that [bytes.fromhex] skips. *)
Definition hex_space (c : ascii) : bool :=
  let n := nat_of_ascii c in
  (((9 <=? n) && (n <=? 13)) || (n =? 32))%nat.

(** [bytes.fromhex(s)]: two digits per byte, white space allowed between
    bytes only; anything else is a [ValueError]. *)
Fixpoint fromhex (s : string) : result (list Z) :=
  match s with
  | EmptyString => inr []
  | String c s' =>
      if hex_space c then fromhex s'
      else
        match hex_value c, s' with
        | Some top, String c' s'' =>
            match hex_value c' with
            | Some bot =>
                match fromhex s'' with
                | inr data => inr ((16 * top + bot)%Z :: data)
                | inl e => inl e
                end
            | None =>
                inl (ValueError "non-hexadecimal number found in fromhex() arg")
            end
        | _, _ =>
            inl (ValueError "non-hexadecimal number found in fromhex() arg")
        end
  end.

(** A JSON object with string values: an application record of the
    television. *)
Abbreviation Application := (gmap string string).

(** What the script does to the outside, and what it prints. *)
Inductive Event : Type :=
| Socket_created
| Setsockopt_broadcast
| Sendto (data : list Z) (host : string) (port : Z)
| Printed (text : string)
| Printed_wol_failure (e : exn)
| List_apps
| Launch (app : Application)
| Store_read
| Store_written (store : gmap string string)
| Client_connect
| Printed_connect_failure (e : exn)
| Slept (seconds : Z).

Definition Run (A : Type) : Type := Traced Event A.

Definition print (text : string) : Run unit := ([Printed text], inr ()).

(** The UDP socket of [send_wol]: each of the three calls may raise. *)
Record WolEnv : Type := {
  socket_socket : result unit;
  setsockopt : result unit;
  sendto : list Z -> string -> Z -> result Z
}.

(** The body of the [try] of [send_wol]. *)
Definition send_wol_try (env : WolEnv) (mac_address : string) : Run unit :=
  let mac_address :=
    remove_char "-"%char (remove_char ":"%char mac_address) in
  do _ <- (if negb (String.length mac_address =? 12)%nat
           then raise (ValueError "Invalid MAC address format")
           else ret ());
  do data <- ([], fromhex (str_mul "FF" 6 +:+ str_mul mac_address 16));
  do _ <- ([Socket_created], socket_socket env);
  do _ <- ([Setsockopt_broadcast], setsockopt env);
  do _ <- ([Sendto data "<broadcast>" 9%Z], sendto env data "<broadcast>" 9%Z);
  print "Wake-on-LAN magic packet sent successfully.".

Definition send_wol (env : WolEnv) (mac_address : string) : Run unit :=
  try_except (send_wol_try env mac_address)
    (fun e => ([Printed_wol_failure e], inr ())).

(** The [ApplicationControl] of a connected client. *)
Record AppEnv : Type := {
  list_apps : result (list Application);
  launch : Application -> result unit
}.

(** [s.lower()] on a name or a title.  Such text is any Unicode text and
    is held in its UTF-8 encoding, in which one string occurs in another
    exactly when its bytes do.  The case tables of Unicode are outside this
    development: the lower-case form of a non-empty string is the parameter
    [unicode_lower]; the empty string has nothing to convert. *)
Definition str_lower (unicode_lower : string -> string) (s : string)
    : string :=
  match s with
  | EmptyString => EmptyString
  | _ => unicode_lower s
  end.

(** [app_name.lower() in app["title"].lower()] *)
Definition title_matches (unicode_lower : string -> string)
    (app_name : string) (app : Application) : result bool :=
  match app !! "title" with
  | Some title =>
      inr (contains (str_lower unicode_lower app_name)
             (str_lower unicode_lower title))
  | None => inl (KeyError "'title'")
  end.

(** [next((app for app in apps if ...), None)] *)
Fixpoint next_match (unicode_lower : string -> string)
    (app_name : string) (apps : list Application)
    : result (option Application) :=
  match apps with
  | [] => inr None
  | app :: apps' =>
      match title_matches unicode_lower app_name app with
      | inl e => inl e
      | inr true => inr (Some app)
      | inr false => next_match unicode_lower app_name apps'
      end
  end.

Definition launch_app (unicode_lower : string -> string)
    (env : AppEnv) (app_name : string) : Run unit :=
  do apps <- ([List_apps], list_apps env);
  do target_app <- ([], next_match unicode_lower app_name apps);
  match target_app with
  | Some app =>
      do _ <- ([Launch app], launch env app);
      print (app_name +:+ " app launched successfully.")
  | None => print (app_name +:+ " app not found.")
  end.

(** The registration store: the JSON object of [lgtv_store.json]. *)
Abbreviation Store := (gmap string string).

(** The values that [client.register(store)] yields. *)
Inductive Status : Type :=
| PROMPTED
| REGISTERED
| Other_status (value : Z).

#[global] Instance Status_eq_dec : EqDecision Status.
Proof. solve_decision. Defined.

(** One pass of the [while] loop as the television and the disk answer it:
    what [client.connect()] does, the values that [client.register(store)]
    yields and how it ends after them ([None]: it is exhausted), what the
    generator, which updates the store object in place, has made of it by
    the time it yields [REGISTERED] and by the end of the pass, and what
    writing the store file does. *)
Record Attempt : Type := {
  connect : result unit;
  statuses : list Status;
  register_end : option exn;
  registered_store : Store -> Store;
  store_after : Store -> Store;
  write_store : Store -> result unit
}.

(** What [connect_to_tv] meets: the reading of the store file (the parsed
    object, or the exception of [open] or [json.load]) and the passes of the
    loop, numbered from 0. *)
Record ConnectEnv : Type := {
  read_store : result Store;
  attempts : nat -> Attempt
}.

(** [load_store]: a missing file is an empty store, any other failure
    goes on to the caller. *)
Definition load_store (env : ConnectEnv) : Run Store :=
  try_except ([Store_read], read_store env)
    (fun e =>
       match e with
       | FileNotFoundError _ => ret ∅
       | _ => raise e
       end).

(** [save_store] *)
Definition save_store (a : Attempt) (store : Store) : Run unit :=
  ([Store_written store], write_store a store).

(** [for status in client.register(store)]: the value is [true] when the
    loop was left by [return client]. *)
Fixpoint register_loop (a : Attempt) (store : Store) (sts : list Status)
    : Run bool :=
  match sts with
  | [] =>
      match register_end a with
      | Some e => raise e
      | None => ret false
      end
  | PROMPTED :: sts' =>
      do _ <- print "Please accept the connection on the TV.";
      register_loop a store sts'
  | REGISTERED :: _ =>
      do _ <- print "Registration successful!";
      do _ <- save_store a (registered_store a store);
      ret true
  | Other_status _ :: sts' => register_loop a store sts'
  end.

(** One pass of [while True]: the [try] and its handler. *)
Definition connect_attempt (a : Attempt) (store : Store) : Run bool :=
  try_except
    (do _ <- ([Client_connect], connect a);
     register_loop a store (statuses a))
    (fun e => ([Printed_connect_failure e; Slept 3%Z], inr false)).

(** The client object: [WebOSClient(TV_IP)]. *)
Inductive Client : Type :=
| WebOSClient (ip : option string).

(** [while True], cut after [fuel] passes: [None] is a loop still
    running. *)
Fixpoint connect_loop (env : ConnectEnv) (client : Client) (store : Store)
    (fuel : nat) (pass : nat) : Run (option Client) :=
  match fuel with
  | O => ret None
  | S fuel' =>
      do returned <- connect_attempt (attempts env pass) store;
      if returned : bool then ret (Some client)
      else connect_loop env client
             (store_after (attempts env pass) store) fuel' (S pass)
  end.

Definition connect_to_tv (env : ConnectEnv) (tv_ip : option string)
    (fuel : nat) : Run (option Client) :=
  do store <- load_store env;
  connect_loop env (WebOSClient tv_ip) store fuel 0.

(** [main]: [TV_MAC] and [TV_IP] are the two environment variables, absent
    or set. *)
Definition main (unicode_lower : string -> string)
    (tv_mac tv_ip : option string)
    (wol : WolEnv) (tv : ConnectEnv) (apps : AppEnv)
    (fuel : nat) (app_name : string) : Run (option unit) :=
  if negb (truthy tv_mac) || negb (truthy tv_ip) then
    do _ <- print "Please set the LGTV_MAC and LGTV_IP environment variables.";
    ret (Some ())
  else
    do _ <- send_wol wol (default "" tv_mac);
    do client <- connect_to_tv tv tv_ip fuel;
    match client with
    | Some _ => do _ <- launch_app unicode_lower apps app_name; ret (Some ())
    | None => ret None
    end.

End LGTVControl.

(** ** Vocabulary of the further statements *)

(** The address as [send_wol] reads it: colons and dashes removed. *)
Definition wol_digits (mac_address : string) : string :=
  LGTVControl.remove_char "-"%char
    (LGTVControl.remove_char ":"%char mac_address).

(** Every character is a hexadecimal digit. *)
Fixpoint all_hex (s : string) : bool :=
  match s with
  | EmptyString => true
  | String c s' => bool_decide (is_Some (LGTVControl.hex_value c)) && all_hex s'
  end.

(** The bytes written by consecutive pairs of hexadecimal digits. *)
Fixpoint hex_pairs (s : string) : list Z :=
  match s with
  | String c (String c' s') =>
      (16 * default 0 (LGTVControl.hex_value c)
       + default 0 (LGTVControl.hex_value c'))%Z :: hex_pairs s'
  | _ => []
  end.

(** A UDP socket on which every call succeeds. *)
Definition wol_env_ok : LGTVControl.WolEnv :=
  {| LGTVControl.socket_socket := inr ();
     LGTVControl.setsockopt := inr ();
     LGTVControl.sendto := λ data _ _, inr (Z.of_nat (length data)) |}.

(** Some character of the string satisfies [p]. *)
Fixpoint str_exists (p : ascii -> bool) (s : string) : bool :=
  match s with
  | EmptyString => false
  | String c s' => p c || str_exists p s'
  end.

(** A character that [bytes.fromhex] accepts nowhere. *)
Definition not_hex_nor_space (c : ascii) : bool :=
  negb (bool_decide (is_Some (LGTVControl.hex_value c)))
  && negb (LGTVControl.hex_space c).

(** Two applications of a television, and a television that lists them
    and launches whatever it is asked to. *)
Definition app_netflix : LGTVControl.Application :=
  {[ "id" := "netflix"; "title" := "Netflix" ]}.

Definition app_plex : LGTVControl.Application :=
  {[ "id" := "cdp-30"; "title" := "Plex" ]}.

Definition app_env_ok : LGTVControl.AppEnv :=
  {| LGTVControl.list_apps := inr [app_netflix; app_plex];
     LGTVControl.launch := λ _, inr () |}.

(** The device that one output line stands for, if the scan accepts it:
    the line parses, its MAC is not blacklisted, and its prefix is in the
    table or the heuristic says yes. *)
Definition accepted_device (self : TVDiscoveryBase) (blacklist : list string)
    (line : string) : option Device :=
  match parse_line line with
  | Some (ip, mac, desc) =>
      if is_blacklisted blacklist mac then None
      else if bool_decide (mac_prefix_of mac ∈ dom (get_mac_prefixes self))
      then Some (make_device self ip mac desc)
      else match _is_tv_device self desc with
           | inr true => Some (make_device self ip mac desc)
           | _ => None
           end
  | None => None
  end.

(** The heuristic answers, without raising, on every line that reaches
    it. *)
Definition heuristic_answers (self : TVDiscoveryBase)
    (blacklist : list string) (lines : list string) : Prop :=
  ∀ line ip mac desc,
    line ∈ lines ->
    parse_line line = Some (ip, mac, desc) ->
    is_blacklisted blacklist mac = false ->
    mac_prefix_of mac ∉ dom (get_mac_prefixes self) ->
    ∃ answer, _is_tv_device self desc = inr answer.

(** A scanner line with a tab. *)
Definition has_tab (line : string) : bool :=
  contains (String TAB EmptyString) line.

(** The dictionary that the WebOS scan builds for a device accepted on its
    description alone. *)
Definition webos_unlisted_device (ip mac description : string) : Device :=
  {| dev_ip := ip;
     dev_mac := mac;
     dev_description := description;
     dev_device_type := "Unknown LG WebOS Model";
     dev_untested := false;
     dev_warning := None |}.

(** [nc] found the port closed: it ran and exited with another code
    than 0. *)
Definition nc_closed (env : WebOS.ProbeEnv) (ip port : string) : Prop :=
  ∃ returncode, WebOS.nc env ip port = inr returncode ∧ returncode ≠ 0%Z.

(** [nc] finds port 3000 closed and port 3001 open. *)
Definition env_nc_second_port_open : WebOS.ProbeEnv :=
  {| WebOS.nc := λ _ port, inr (if String.eqb port "3001" then 0 else 1)%Z;
     WebOS.connect_ex := λ _ _, inr 111%Z;
     WebOS.gethostbyaddr := λ _, inl socket_herror |}.

(** [nc] finds port 3000 closed, cannot be run for port 3001, and would
    find the later ports open. *)
Definition env_nc_breaks_on_second_port : WebOS.ProbeEnv :=
  {| WebOS.nc := λ _ port,
       if String.eqb port "3000" then inr 1%Z
       else if String.eqb port "3001" then inl (OtherException "OSError")
       else inr 0%Z;
     WebOS.connect_ex := λ _ _, inr 111%Z;
     WebOS.gethostbyaddr := λ _, inl socket_herror |}.

(** A sequence of requests to the factory, first to last. *)
Fixpoint requests (tizen_registers android_registers : bool)
    (tv_types : list string) (st : Factory.Interp) : Factory.Interp :=
  match tv_types with
  | [] => st
  | tv_type :: tv_types' =>
      requests tizen_registers android_registers tv_types'
        (Factory.get_discovery tizen_registers android_registers tv_type st).2
  end.

(** How many instances of a class a list holds. *)
Definition count_class (c : Factory.DiscoveryClass)
    (objs : list Factory.Instance) : nat :=
  length (filter (λ obj, Factory.inst_class obj = c) objs).

(** An object registered from outside the factory. *)
Definition injected : Factory.Instance :=
  {| Factory.inst_id := 7; Factory.inst_class := Factory.WebOSDiscovery |}.

(** What holds of the interpreter between requests: at most two
    instances of a class, none as long as its key is free, every entry an
    instance of the family of its key, and identities in construction
    order. *)
Definition factory_inv (st : Factory.Interp) : Prop :=
  (∀ c, (count_class c (Factory.constructed st) ≤ 2)%nat) ∧
  (∀ c, Factory._discoveries st !! Factory.tv_type_of c = None ->
        count_class c (Factory.constructed st) = 0%nat) ∧
  (∀ key obj, Factory._discoveries st !! key = Some obj ->
     ∃ c, key = Factory.tv_type_of c ∧ Factory.inst_class obj = c
          ∧ obj ∈ Factory.constructed st) ∧
  Factory.inst_id <$> Factory.constructed st
  = seq 0 (length (Factory.constructed st)).

(** A pass registers: the connection is made, the generator comes to
    yield [REGISTERED], and the store it has then is written. *)
Definition registers (a : LGTVControl.Attempt) (store : LGTVControl.Store)
    : bool :=
  match LGTVControl.connect a with
  | inr _ =>
      bool_decide (LGTVControl.REGISTERED ∈ LGTVControl.statuses a)
      && match LGTVControl.write_store a
                 (LGTVControl.registered_store a store) with
         | inr _ => true
         | inl _ => false
         end
  | inl _ => false
  end.

(** The store object at the start of pass [pass + n], from the one at the
    start of pass [pass]. *)
Fixpoint store_at (env : LGTVControl.ConnectEnv) (store : LGTVControl.Store)
    (pass n : nat) : LGTVControl.Store :=
  match n with
  | O => store
  | S n' =>
      store_at env
        (LGTVControl.store_after (LGTVControl.attempts env pass) store)
        (S pass) n'
  end.

(** A television that refuses the connection twice, then prompts and
    registers with a key. *)
Definition attempt_refused : LGTVControl.Attempt :=
  {| LGTVControl.connect := inl (OtherException "ConnectionRefusedError");
     LGTVControl.statuses := [];
     LGTVControl.register_end := None;
     LGTVControl.registered_store := λ store, store;
     LGTVControl.store_after := λ store, store;
     LGTVControl.write_store := λ _, inr () |}.

Definition attempt_registered : LGTVControl.Attempt :=
  {| LGTVControl.connect := inr ();
     LGTVControl.statuses := [LGTVControl.PROMPTED; LGTVControl.REGISTERED];
     LGTVControl.register_end := None;
     LGTVControl.registered_store := λ store, <["client_key" := "k1"]> store;
     LGTVControl.store_after := λ store, <["client_key" := "k1"]> store;
     LGTVControl.write_store := λ _, inr () |}.

Definition tv_third_time : LGTVControl.ConnectEnv :=
  {| LGTVControl.read_store := inl (FileNotFoundError "lgtv_store.json");
     LGTVControl.attempts := λ pass,
       if (pass <? 2)%nat then attempt_refused else attempt_registered |}.

(** An event other than a launch. *)
Definition not_launch (ev : LGTVControl.Event) : Prop :=
  match ev with LGTVControl.Launch _ => False | _ => True end.

(** Text in which every character is an ASCII character. *)
Fixpoint is_ascii (s : string) : bool :=
  match s with
  | EmptyString => true
  | String c s' => (nat_of_ascii c <? 128)%nat && is_ascii s'
  end.

(** A lower-casing that is the ASCII one on ASCII text, as [str.lower]
    is. *)
Definition lower_on_ascii (unicode_lower : string -> string) : Prop :=
  ∀ s, is_ascii s = true -> unicode_lower s = lower s.

(** ** The string methods on scanner output *)

Example splitlines_mixed_endings :
  splitlines ("a" +:+ String CR (String LF "b") +:+ String LF (String LF "c")
              +:+ String LF "")
  = ["a"; "b"; ""; "c"].
Proof. reflexivity. Qed.

Example strip_then_split_keeps_empty_fields :
  split TAB (strip (" a" +:+ String TAB (String TAB "b ") +:+ String TAB ""))
  = ["a"; ""; "b"].
Proof. reflexivity. Qed.

Example parse_line_three_fields :
  parse_line lg_stdout
  = Some ("192.168.1.5", "7C:AB:25:11:22:33", Some "My LG TV").
Proof. reflexivity. Qed.

Example parse_line_two_fields :
  parse_line (arp_line "192.168.1.9" "AA:BB:CC:11:22:33" "")
  = Some ("192.168.1.9", "AA:BB:CC:11:22:33", None).
Proof. reflexivity. Qed.

Example parse_line_without_tab :
  parse_line "Interface: eth0, type: EN10MB, IPv4: 192.168.1.2" = None.
Proof. reflexivity. Qed.

Example parse_line_missing_mac :
  parse_line ("192.168.1.5" +:+ String TAB "") = None.
Proof. reflexivity. Qed.

Example mac_prefix_of_lowercase :
  mac_prefix_of "7c:ab:25:11:22:33" = "7C:AB:25".
Proof. reflexivity. Qed.

(** ** The scan: general facts *)

Section ScanFacts.

Context (self : TVDiscoveryBase) (blacklist : list string).

Lemma bind_ret_l {E A B} (a : A) (k : A -> Traced E B) :
  bind (ret a) k = k a.
Proof. unfold bind, ret. by destruct (k a). Qed.

Lemma scan_triple_blacklisted devices ip mac desc :
  is_blacklisted blacklist mac = true ->
  scan_triple self blacklist devices ip mac desc = ret devices.
Proof. intros Hb. unfold scan_triple. by rewrite Hb. Qed.

Lemma scan_triple_in_table devices ip mac desc :
  is_blacklisted blacklist mac = false ->
  mac_prefix_of mac ∈ dom (get_mac_prefixes self) ->
  scan_triple self blacklist devices ip mac desc =
    (do device <- call_enrich_device_info self
                    (make_device self ip mac desc);
     ret (devices ++ [device])).
Proof.
  intros Hb Hin. unfold scan_triple. rewrite Hb.
  rewrite bool_decide_eq_true_2 by done.
  by rewrite bind_ret_l.
Qed.

Lemma scan_triple_calls devices ip mac desc calls r :
  scan_triple self blacklist devices ip mac desc = (calls, r) ->
  (∀ c, c ∈ calls -> call_of_triple self blacklist ip mac desc c) ∧
  (∀ devices', r = inr devices' -> appended self calls devices devices').
Proof.
  unfold scan_triple, call_of_triple.
  destruct (is_blacklisted blacklist mac) eqn:Hb.
  { intros [= <- <-]. split; [by intros c ?%elem_of_nil|].
    intros ? [= <-]. exists []. split; [by rewrite app_nil_r|].
    by intros d ?%elem_of_nil. }
  case_bool_decide as Hin.
  - rewrite bind_ret_l. unfold call_enrich_device_info, bind, ret.
    destruct (_enrich_device_info self _) as [e|d] eqn:He.
    + intros [= <- <-]. split; [|done].
      intros c ->%list_elem_of_singleton. auto.
    + intros [= <- <-]. split.
      * intros c ->%list_elem_of_singleton. auto.
      * intros ? [= <-]. exists [d]. split; [done|].
        intros d' ->%list_elem_of_singleton.
        eexists. split; [|exact He]. set_solver.
  - unfold call_is_tv_device, call_enrich_device_info, bind, ret.
    destruct (_is_tv_device self desc) as [e|[|]] eqn:Htv.
    + intros [= <- <-]. split; [|done].
      intros c ->%list_elem_of_singleton. auto.
    + destruct (_enrich_device_info self _) as [e|d] eqn:He.
      * intros [= <- <-]. split; [|done].
        intros c [->| ->%list_elem_of_singleton]%elem_of_cons; auto.
      * intros [= <- <-]. split.
        -- intros c [->| ->%list_elem_of_singleton]%elem_of_cons; auto.
        -- intros ? [= <-]. exists [d]. split; [done|].
           intros d' ->%list_elem_of_singleton.
           eexists. split; [|exact He]. set_solver.
    + intros [= <- <-]. split.
      * intros c ->%list_elem_of_singleton. auto.
      * intros ? [= <-]. exists []. split; [by rewrite app_nil_r|].
        by intros d ?%elem_of_nil.
Qed.

Lemma scan_line_calls devices line calls r :
  scan_line self blacklist devices line = (calls, r) ->
  (∀ c, c ∈ calls -> call_of_line self blacklist line c) ∧
  (∀ devices', r = inr devices' -> appended self calls devices devices').
Proof.
  unfold scan_line, call_of_line.
  destruct (parse_line line) as [[[ip mac] desc]|] eqn:Hp.
  - intros [Hc Hd]%scan_triple_calls. split; [|done].
    intros c Hin. exists ip, mac, desc. auto.
  - intros [= <- <-]. split; [by intros c ?%elem_of_nil|].
    intros ? [= <-]. exists []. split; [by rewrite app_nil_r|].
    by intros d ?%elem_of_nil.
Qed.

Lemma appended_trans calls1 calls2 ds1 ds2 ds3 :
  appended self calls1 ds1 ds2 -> appended self calls2 ds2 ds3 ->
  appended self (calls1 ++ calls2) ds1 ds3.
Proof.
  intros (a1 & -> & H1) (a2 & -> & H2).
  exists (a1 ++ a2). split; [by rewrite app_assoc|].
  intros d [Hd|Hd]%elem_of_app.
  - destruct (H1 d Hd) as (d0 & ? & ?). exists d0. set_solver.
  - destruct (H2 d Hd) as (d0 & ? & ?). exists d0. set_solver.
Qed.

Lemma scan_lines_calls lines : ∀ devices calls r,
  scan_lines self blacklist devices lines = (calls, r) ->
  (∀ c, c ∈ calls -> ∃ line, line ∈ lines ∧ call_of_line self blacklist line c) ∧
  (∀ devices', r = inr devices' -> appended self calls devices devices').
Proof.
  induction lines as [|line lines IH]; intros devices calls r; simpl.
  - intros [= <- <-]. split; [by intros c ?%elem_of_nil|].
    intros ? [= <-]. exists []. split; [by rewrite app_nil_r|].
    by intros d ?%elem_of_nil.
  - destruct (scan_line self blacklist devices line) as [calls1 [e|ds1]] eqn:H1;
      simpl.
    + intros [= <- <-]. apply scan_line_calls in H1 as [Hc _].
      split; [|done]. intros c Hin. exists line.
      split; [apply elem_of_cons; auto|auto].
    + destruct (scan_lines self blacklist ds1 lines) as [calls2 r2] eqn:H2.
      intros [= <- <-].
      apply scan_line_calls in H1 as [Hc1 Hd1].
      apply IH in H2 as [Hc2 Hd2]. split.
      * intros c [Hin|Hin]%elem_of_app.
        -- exists line. split; [apply elem_of_cons; auto|auto].
        -- destruct (Hc2 c Hin) as (l & ? & ?). exists l.
           split; [apply elem_of_cons; auto|auto].
      * intros ds3 ->. eapply appended_trans; eauto.
Qed.

Lemma scan_line_blacklisted devices line :
  line_blacklisted blacklist line = true ->
  scan_line self blacklist devices line = ret devices.
Proof.
  unfold line_blacklisted, scan_line.
  destruct (parse_line line) as [[[ip mac] desc]|]; [|done].
  apply scan_triple_blacklisted.
Qed.

Lemma scan_lines_filter_blacklisted lines : ∀ devices,
  scan_lines self blacklist devices lines =
  scan_lines self blacklist devices
    (filter (λ line, line_blacklisted blacklist line = false) lines).
Proof.
  induction lines as [|line lines IH]; intros devices; [done|].
  rewrite filter_cons. simpl. case_decide as Hb.
  - simpl. destruct (scan_line self blacklist devices line) as [calls [e|ds]];
      simpl; [done|]. by rewrite IH.
  - apply not_false_is_true in Hb.
    rewrite scan_line_blacklisted by done. by rewrite bind_ret_l.
Qed.

End ScanFacts.

Section ScanNetworkFacts.

Context (self : TVDiscoveryBase).

Lemma scan_network_scan_env blacklist stdout :
  scan_network self (scan_env blacklist stdout) =
  try_except (scan_lines self blacklist [] (splitlines stdout))
    (λ _, ret []).
Proof.
  unfold scan_network, scan_network_try, scan_env. simpl.
  destruct (scan_lines _ _ _ _) as [calls [e|ds]]; simpl; [|done].
  by destruct e.
Qed.

Lemma scan_network_never_raises env :
  ∃ devices, (scan_network self env).2 = inr devices.
Proof.
  unfold scan_network.
  destruct (scan_network_try self env) as [calls [e|ds]]; simpl; eauto.
  destruct e; simpl; eauto.
Qed.

Lemma scan_network_raised env e :
  (scan_network_try self env).2 = inl e ->
  (scan_network self env).2 = inr [].
Proof.
  unfold scan_network.
  destruct (scan_network_try self env) as [calls [e'|ds]]; simpl; [|done].
  intros _. by destruct e'.
Qed.

(** A scan that returns a device read the blacklist and the output of
    [arp-scan], and went through all lines. *)
Lemma scan_network_returned env devices d :
  (scan_network self env).2 = inr devices -> d ∈ devices ->
  ∃ blacklist stdout,
    blacklisted_macs env = inr blacklist ∧
    arp_scan env = Exited 0 stdout ∧
    scan_lines self blacklist [] (splitlines stdout) =
      ((scan_network self env).1, inr devices).
Proof.
  unfold scan_network, scan_network_try.
  destruct env as [[e|bl] arp]; simpl.
  { destruct e; simpl; intros [= <-] []%elem_of_nil. }
  destruct arp as [|[|c|c] out|e]; simpl;
    try (intros [= <-] []%elem_of_nil);
    try (destruct e; simpl; intros [= <-] []%elem_of_nil).
  destruct (scan_lines self bl [] (splitlines out)) as [calls [e|ds]] eqn:Hs;
    simpl.
  - destruct e; simpl; intros [= <-] []%elem_of_nil.
  - intros [= <-] _. by exists bl, out.
Qed.

End ScanNetworkFacts.

(** ** The scan: properties *)

(** C1. End to end: for the scanner line
    "192.168.1.5<TAB>7C:AB:25:11:22:33<TAB>My LG TV" (with or without the
    final newline) and an empty blacklist, the WebOS scan returns exactly one
    device, with ip "192.168.1.5", mac "7C:AB:25:11:22:33", device type
    "LG WebOS TV" (the table entry of prefix 7C:AB:25) and untested false. *)
Theorem scan_network_lg_end_to_end :
  WebOS.get_mac_prefixes !! "7C:AB:25" = Some "LG WebOS TV" ∧
  ∃ d,
    (scan_network WebOS.WebOSDiscovery (scan_env [] lg_stdout)).2 = inr [d] ∧
    (scan_network WebOS.WebOSDiscovery
       (scan_env [] (lg_stdout +:+ String LF ""))).2 = inr [d] ∧
    dev_ip d = "192.168.1.5" ∧
    dev_mac d = "7C:AB:25:11:22:33" ∧
    dev_device_type d = "LG WebOS TV" ∧
    dev_untested d = false.
Proof.
  split; [by vm_compute|].
  exists lg_device. repeat split; by vm_compute.
Qed.

(** C2. Whatever the scanner output and the blacklist: a triple whose MAC is
    in the blacklist, compared in lower case, leaves the device list as it
    was and calls no hook, whatever its prefix and description; the whole
    scan is the scan of the output without the blacklisted lines; every hook
    call of the scan, classification heuristic or enrichment, comes from a
    line whose MAC is not in the blacklist; and every returned device is the
    enrichment of a dictionary built for such a line. *)
Theorem scan_network_excludes_blacklisted
    (self : TVDiscoveryBase) (blacklist : list string) (stdout : string) :
  (∀ devices ip mac desc,
     lower mac ∈ map lower blacklist ->
     scan_triple self blacklist devices ip mac desc = ([], inr devices)) ∧
  scan_network self (scan_env blacklist stdout) =
    try_except
      (scan_lines self blacklist []
         (filter (λ line, line_blacklisted blacklist line = false)
            (splitlines stdout)))
      (λ _, ret []) ∧
  (∀ c, c ∈ (scan_network self (scan_env blacklist stdout)).1 ->
     ∃ line ip mac desc,
       line ∈ splitlines stdout ∧
       parse_line line = Some (ip, mac, desc) ∧
       (lower mac ∉ map lower blacklist) ∧
       (c = Call_is_tv_device desc
        ∨ c = Call_enrich_device_info (make_device self ip mac desc))) ∧
  (∀ devices d,
     (scan_network self (scan_env blacklist stdout)).2 = inr devices ->
     d ∈ devices ->
     ∃ d0, Call_enrich_device_info d0
             ∈ (scan_network self (scan_env blacklist stdout)).1 ∧
           (lower (dev_mac d0) ∉ map lower blacklist) ∧
           _enrich_device_info self d0 = inr d).
Proof.
  assert (Hcalls : ∀ c,
    c ∈ (scan_network self (scan_env blacklist stdout)).1 ->
    ∃ line ip mac desc,
      line ∈ splitlines stdout ∧
      parse_line line = Some (ip, mac, desc) ∧
      (lower mac ∉ map lower blacklist) ∧
      (c = Call_is_tv_device desc
       ∨ c = Call_enrich_device_info (make_device self ip mac desc))).
  { intros c. rewrite scan_network_scan_env.
    destruct (scan_lines self blacklist [] (splitlines stdout))
      as [calls r] eqn:Hs.
    apply scan_lines_calls in Hs as [Hc _].
    intros Hin.
    assert (c ∈ calls) as Hin'.
    { destruct r as [e|ds]; simpl in Hin; [|done].
      by rewrite app_nil_r in Hin. }
    destruct (Hc c Hin') as (line & Hl & ip & mac & desc & Hp & Hb & Hk).
    exists line, ip, mac, desc. split; [done|]. split; [done|].
    split.
    { unfold is_blacklisted in Hb. by apply bool_decide_eq_false in Hb. }
    destruct c; [left|right]; f_equal; apply Hk. }
  split; [|split; [|split; [done|]]].
  - intros devices ip mac desc Hin. apply scan_triple_blacklisted.
    unfold is_blacklisted. by apply bool_decide_eq_true.
  - rewrite scan_network_scan_env.
    by rewrite <- scan_lines_filter_blacklisted.
  - intros devices d Hr Hd.
    destruct (scan_network_returned self _ devices d Hr Hd)
      as (bl & out & [= <-] & [= <-] & Hs).
    apply scan_lines_calls in Hs as [_ Ha].
    destruct (Ha devices eq_refl) as (added & -> & Hadd).
    destruct (Hadd d Hd) as (d0 & Hin & He).
    exists d0. split; [done|]. split; [|done].
    destruct (Hcalls _ Hin) as (line & ip & mac & desc & _ & _ & Hb & [?| [= ->]]);
      [done|]. done.
Qed.

Lemma scan_network_excludes_blacklisted_witness :
  scan_triple WebOS.WebOSDiscovery ["7c:ab:25:11:22:33"] []
    "192.168.1.5" "7C:AB:25:11:22:33" (Some "My LG TV")
  = ([], inr []).
Proof.
  refine (proj1 (scan_network_excludes_blacklisted WebOS.WebOSDiscovery
                   ["7c:ab:25:11:22:33"] lg_stdout) _ _ _ _ _).
  apply list_elem_of_In. simpl. left. reflexivity.
Defined.

(** C4 (the code departs from it). [WebOSDiscovery._is_tv_device] applies
    [in] to its argument, which [scan_network] sets to [None] for a line
    without a third field.  The television alone is found; followed by a
    bare line of an unlisted prefix, the heuristic raises [TypeError], the
    handler of [scan_network] returns the empty list and the television is
    lost. *)
Theorem scan_network_bare_line_loses_scan :
  WebOS._is_tv_device None
    = inl (TypeError "argument of type 'NoneType' is not iterable") ∧
  scan_network WebOS.WebOSDiscovery (scan_env [] lg_stdout)
    = ([Call_enrich_device_info lg_device], inr [lg_device]) ∧
  scan_network WebOS.WebOSDiscovery (scan_env [] lg_then_bare_stdout)
    = ([Call_enrich_device_info lg_device; Call_is_tv_device None], inr []).
Proof. repeat split; by vm_compute. Qed.

(** C5. When [arp-scan] is missing, exits with a code other than 0, or
    anything raises inside the [try] (the settings lookup, the process
    launch, a hook), [scan_network] returns the empty list; and no scan ever
    raises. *)
Theorem scan_network_adapter_failure (self : TVDiscoveryBase) (env : ScanEnv) :
  (arp_scan env = ToolMissing
   ∨ (∃ returncode stdout,
        arp_scan env = Exited returncode stdout ∧ returncode ≠ 0%Z)
   ∨ (∃ e, arp_scan env = RunFailed e)
   ∨ (∃ e, blacklisted_macs env = inl e)
   ∨ (∃ e, (scan_network_try self env).2 = inl e)) ->
  (scan_network self env).2 = inr [] ∧
  (∀ self' env', ∃ devices, (scan_network self' env').2 = inr devices).
Proof.
  intros H. split; [|intros; apply scan_network_never_raises].
  assert (∃ e, (scan_network_try self env).2 = inl e) as [e He];
    [|by eapply scan_network_raised].
  unfold scan_network_try.
  destruct H as [H|[(c & out & H & Hc)|[[e H]|[[e H]|[e H]]]]]; [..|by eauto].
  - destruct (blacklisted_macs env); simpl; [by eauto|].
    rewrite H. simpl. eauto.
  - destruct (blacklisted_macs env); simpl; [by eauto|].
    rewrite H. destruct c; simpl; [done|by eauto..].
  - destruct (blacklisted_macs env); simpl; [by eauto|].
    rewrite H. simpl. eauto.
  - rewrite H. simpl. eauto.
Qed.

Lemma scan_network_adapter_failure_witness :
  (scan_network WebOS.WebOSDiscovery
     {| blacklisted_macs := inr []; arp_scan := Exited 1 "" |}).2 = inr [].
Proof.
  apply (scan_network_adapter_failure WebOS.WebOSDiscovery
           {| blacklisted_macs := inr []; arp_scan := Exited 1 "" |}).
  right. left. exists 1%Z, "". split; [reflexivity|lia].
Defined.

(** Every dictionary handed to the enrichment hook by a scan is the literal
    built for some line of the output. *)
Lemma scan_network_enriched (self : TVDiscoveryBase) (env : ScanEnv)
    (devices : list Device) (d : Device) :
  (scan_network self env).2 = inr devices -> d ∈ devices ->
  ∃ stdout line ip mac desc,
    arp_scan env = Exited 0 stdout ∧
    line ∈ splitlines stdout ∧
    parse_line line = Some (ip, mac, desc) ∧
    _enrich_device_info self (make_device self ip mac desc) = inr d.
Proof.
  intros Hr Hd.
  destruct (scan_network_returned self env devices d Hr Hd)
    as (bl & out & _ & Harp & Hs).
  apply scan_lines_calls in Hs as [Hc Ha].
  destruct (Ha devices eq_refl) as (added & -> & Hadd).
  destruct (Hadd d Hd) as (d0 & Hin & He).
  destruct (Hc _ Hin) as (line & Hl & ip & mac & desc & Hp & _ & -> & _).
  by exists out, line, ip, mac, desc.
Qed.

(** C8. For a vendor class whose enrichment hook leaves the two entries as
    built (the hook of the base class, which WebOS inherits, changes
    nothing): every device returned by a scan has [untested] true exactly
    when the warning message of the class is a non-empty string, and its
    [warning] is that message; so [untested] is true exactly when [warning]
    holds a non-empty message, and a class without a message, as WebOS,
    gives [untested] false and no warning. *)
Theorem scan_network_untested_iff_warning
    (self : TVDiscoveryBase) (env : ScanEnv)
    (devices : list Device) (d : Device) :
  (∀ d0 d1, _enrich_device_info self d0 = inr d1 ->
     dev_untested d1 = dev_untested d0 ∧ dev_warning d1 = dev_warning d0) ->
  (scan_network self env).2 = inr devices ->
  d ∈ devices ->
  (dev_untested d = true
     ↔ ∃ msg, get_warning_message self = Some msg ∧ msg ≠ "") ∧
  dev_warning d = get_warning_message self ∧
  (dev_untested d = true ↔ ∃ msg, dev_warning d = Some msg ∧ msg ≠ "") ∧
  (get_warning_message self = None ->
     dev_untested d = false ∧ dev_warning d = None) ∧
  WebOS.get_warning_message = None.
Proof.
  intros Hkeep Hr Hd.
  destruct (scan_network_enriched self env devices d Hr Hd)
    as (out & line & ip & mac & desc & _ & _ & _ & He).
  destruct (Hkeep _ _ He) as [Hu Hw]. simpl in Hu, Hw.
  assert (Htruthy : ∀ w, truthy w = true ↔ ∃ msg, w = Some msg ∧ msg ≠ "").
  { intros [m|]; simpl.
    - rewrite negb_true_iff, String.eqb_neq. split.
      + intros Hne. by exists m.
      + by intros (m' & [= <-] & Hne).
    - split; [done|]. by intros (m' & [=] & _). }
  rewrite Hu, Hw.
  split; [apply Htruthy|]. split; [done|]. split; [apply Htruthy|].
  split; [|done]. by intros ->.
Qed.

Lemma scan_network_untested_iff_warning_witness :
  dev_untested lg_device = false ∧ dev_warning lg_device = None.
Proof.
  apply (scan_network_untested_iff_warning WebOS.WebOSDiscovery
           (scan_env [] lg_stdout) [lg_device] lg_device).
  - intros d0 d1 [= ->]. split; reflexivity.
  - vm_compute. reflexivity.
  - apply list_elem_of_singleton. reflexivity.
  - reflexivity.
Defined.

(** C9, as the code has it: the scan returns a MAC in the case the scanner
    printed it.  For the output line in lower case the device is accepted
    (its upper-cased prefix is in the table) and its [mac] is the lower-case
    string, which differs from its upper-case form. *)
Lemma scan_network_lowercase_mac_returned :
  (scan_network WebOS.WebOSDiscovery
     (scan_env [] lg_stdout_lowercase)).2 = inr [lg_device_lowercase] ∧
  dev_mac lg_device_lowercase = "7c:ab:25:11:22:33" ∧
  upper (dev_mac lg_device_lowercase) = "7C:AB:25:11:22:33" ∧
  dev_mac lg_device_lowercase ≠ upper (dev_mac lg_device_lowercase).
Proof. repeat split; by vm_compute. Qed.

(** C9, amended. For a vendor class whose enrichment hook leaves [mac] as
    built: the [mac] of every returned device is the second tab-separated
    field of a line of the scanner output, unchanged; upper case is used
    only for the eight-character prefix looked up in the table. *)
Theorem scan_network_mac_as_reported
    (self : TVDiscoveryBase) (env : ScanEnv)
    (devices : list Device) (d : Device) :
  (∀ d0 d1, _enrich_device_info self d0 = inr d1 -> dev_mac d1 = dev_mac d0) ->
  (scan_network self env).2 = inr devices ->
  d ∈ devices ->
  ∃ stdout line ip mac desc,
    arp_scan env = Exited 0 stdout ∧
    line ∈ splitlines stdout ∧
    parse_line line = Some (ip, mac, desc) ∧
    dev_mac d = mac.
Proof.
  intros Hkeep Hr Hd.
  destruct (scan_network_enriched self env devices d Hr Hd)
    as (out & line & ip & mac & desc & Harp & Hl & Hp & He).
  exists out, line, ip, mac, desc. repeat split; [done..|].
  by rewrite (Hkeep _ _ He).
Qed.

Lemma scan_network_mac_as_reported_witness :
  ∃ stdout line ip mac desc,
    arp_scan (scan_env [] lg_stdout_lowercase) = Exited 0 stdout ∧
    line ∈ splitlines stdout ∧
    parse_line line = Some (ip, mac, desc) ∧
    dev_mac lg_device_lowercase = mac.
Proof.
  apply (scan_network_mac_as_reported WebOS.WebOSDiscovery
           (scan_env [] lg_stdout_lowercase) [lg_device_lowercase]).
  - intros d0 d1 [= ->]. reflexivity.
  - vm_compute. reflexivity.
  - apply list_elem_of_singleton. reflexivity.
Defined.

(** C10. For a triple that is not blacklisted and whose upper-cased
    eight-character prefix is a key of the table, the loop iteration is the
    enrichment of the built dictionary followed by its append: the heuristic
    is not called, so the outcome is the same for every heuristic, also one
    that raises on a missing description; the device type is the table
    entry.  The same holds of the iteration inside a scan of further
    lines. *)
Theorem scan_table_match_skips_heuristic
    (self : TVDiscoveryBase) (blacklist : list string)
    (devices : list Device) (ip mac : string) (desc : option string) :
  is_blacklisted blacklist mac = false ->
  mac_prefix_of mac ∈ dom (get_mac_prefixes self) ->
  scan_triple self blacklist devices ip mac desc =
    (do device <- call_enrich_device_info self (make_device self ip mac desc);
     ret (devices ++ [device])) ∧
  (∀ desc', Call_is_tv_device desc'
              ∉ (scan_triple self blacklist devices ip mac desc).1) ∧
  (∀ heuristic,
     scan_triple
       {| get_name := get_name self;
          get_mac_prefixes := get_mac_prefixes self;
          get_warning_message := get_warning_message self;
          _is_tv_device := heuristic;
          _enrich_device_info := _enrich_device_info self |}
       blacklist devices ip mac desc
     = scan_triple self blacklist devices ip mac desc) ∧
  get_mac_prefixes self !! mac_prefix_of mac
    = Some (dev_device_type (make_device self ip mac desc)) ∧
  (∀ line lines,
     parse_line line = Some (ip, mac, desc) ->
     scan_lines self blacklist devices (line :: lines) =
       (do device <- call_enrich_device_info self
                       (make_device self ip mac desc);
        scan_lines self blacklist (devices ++ [device]) lines)).
Proof.
  intros Hb Hin.
  pose proof (scan_triple_in_table self blacklist devices ip mac desc Hb Hin)
    as Heq.
  split; [done|]. split; [|split; [|split]].
  - intros desc'. rewrite Heq. unfold call_enrich_device_info, bind, ret.
    destruct (_enrich_device_info self _); simpl;
      by intros [=]%list_elem_of_singleton.
  - intros heuristic. rewrite Heq.
    by rewrite scan_triple_in_table.
  - apply elem_of_dom in Hin as [v Hv]. simpl.
    unfold dict_get. by rewrite Hv.
  - intros line lines Hp. simpl. unfold scan_line. rewrite Hp, Heq.
    unfold call_enrich_device_info, bind, ret.
    destruct (_enrich_device_info self _) as [e|d]; simpl; [done|].
    by destruct (scan_lines self blacklist (devices ++ [d]) lines).
Qed.

Lemma scan_table_match_skips_heuristic_witness :
  scan_triple WebOS.WebOSDiscovery [] [] "192.168.1.5" "7C:AB:25:11:22:33" None
  = ([Call_enrich_device_info
        (make_device WebOS.WebOSDiscovery
           "192.168.1.5" "7C:AB:25:11:22:33" None)],
     inr [make_device WebOS.WebOSDiscovery
            "192.168.1.5" "7C:AB:25:11:22:33" None]).
Proof.
  refine (proj1 (scan_table_match_skips_heuristic WebOS.WebOSDiscovery [] []
                   "192.168.1.5" "7C:AB:25:11:22:33" None _ _)).
  - reflexivity.
  - vm_compute. reflexivity.
Defined.

(** ** The reachability probe *)

Section ProbeFacts.

Context (globals : list string) (env : WebOS.ProbeEnv) (ip : string).

Lemma bind_snd {E A B} (m : Traced E A) (k : A -> Traced E B) :
  (bind m k).2 = match m.2 with inl e => inl e | inr a => (k a).2 end.
Proof.
  destruct m as [calls [e|a]]; simpl; [done|]. by destruct (k a).
Qed.

Lemma try_except_snd {E A} (m : Traced E A) (h : exn -> Traced E A) :
  (try_except m h).2 = match m.2 with inl e => (h e).2 | inr a => inr a end.
Proof.
  destruct m as [calls [e|a]]; simpl; [|done]. by destruct (h e).
Qed.

Lemma nc_loop_fails ps :
  (∀ port, port ∈ ps -> WebOS.nc env ip port ≠ inr 0%Z) ->
  (WebOS.nc_loop env ip ps).2 ≠ inr true.
Proof.
  induction ps as [|port ps IH]; intros Hall; [done|].
  cbn [WebOS.nc_loop]. rewrite bind_snd. cbn [snd].
  destruct (WebOS.nc env ip port) as [e|rc] eqn:Hnc; [done|].
  destruct (Z.eqb_spec rc 0) as [->|Hne].
  - exfalso. apply (Hall port); [apply elem_of_cons; auto|done].
  - apply IH. intros p Hp. apply Hall. apply elem_of_cons; auto.
Qed.

Lemma test_connection_nc_total :
  ∃ b, (WebOS._test_connection_nc env ip).2 = inr b.
Proof.
  unfold WebOS._test_connection_nc. rewrite try_except_snd.
  destruct (WebOS.nc_loop env ip WebOS.ports).2; simpl; eauto.
Qed.

Lemma test_connection_nc_fails :
  (∀ port, port ∈ WebOS.ports -> WebOS.nc env ip port ≠ inr 0%Z) ->
  (WebOS._test_connection_nc env ip).2 = inr false.
Proof.
  intros Hall%nc_loop_fails.
  unfold WebOS._test_connection_nc. rewrite try_except_snd.
  destruct (WebOS.nc_loop env ip WebOS.ports).2 as [e|[|]]; done.
Qed.

Lemma socket_loop_snd ps :
  (WebOS.socket_loop globals env ip ps).2 =
  inr (existsb
         (λ port, connected (WebOS.socket_attempt globals env ip port).2) ps).
Proof.
  induction ps as [|port ps IH]; [done|].
  cbn [WebOS.socket_loop existsb].
  rewrite bind_snd, try_except_snd, bind_snd.
  destruct (WebOS.socket_attempt globals env ip port).2 as [e|rc]; simpl.
  - apply IH.
  - destruct rc; simpl; [done|apply IH..].
Qed.

Lemma socket_attempt_fails port :
  WebOS.connect_ex env ip port ≠ inr 0%Z ->
  connected (WebOS.socket_attempt globals env ip port).2 = false.
Proof.
  intros Hne. unfold WebOS.socket_attempt, WebOS.load_global.
  rewrite bind_snd. case_bool_decide; simpl; [|done].
  destruct (WebOS.connect_ex env ip port) as [e|[| |]]; done.
Qed.

Lemma resolve_attempt_fails :
  WebOS.gethostbyaddr env ip ≠ inr () ->
  resolved (WebOS.resolve_attempt globals env ip).2 = false.
Proof.
  intros Hne. unfold WebOS.resolve_attempt, WebOS.load_global.
  rewrite bind_snd. case_bool_decide; simpl; [|done].
  destruct (WebOS.gethostbyaddr env ip) as [e|[]]; done.
Qed.

Lemma except_herror_not_true e :
  (WebOS.except_herror globals e).2 ≠ inr true.
Proof.
  unfold WebOS.except_herror, WebOS.load_global. rewrite bind_snd.
  case_bool_decide; simpl; [|done]. by destruct e.
Qed.

(** The verdict is the disjunction of the three methods. *)
Lemma test_connection_verdict :
  (WebOS.test_connection_in globals env ip).2 =
  inr (succeeded (WebOS._test_connection_nc env ip).2
       || existsb
            (λ port, connected (WebOS.socket_attempt globals env ip port).2)
            WebOS.webos_ports
       || resolved (WebOS.resolve_attempt globals env ip).2).
Proof.
  unfold WebOS.test_connection_in.
  rewrite try_except_snd, bind_snd.
  destruct test_connection_nc_total as [b ->].
  destruct b; cbn [succeeded orb]; [done|].
  rewrite bind_snd, socket_loop_snd.
  destruct (existsb _ WebOS.webos_ports); cbn [orb]; [done|].
  rewrite try_except_snd, bind_snd.
  destruct (WebOS.resolve_attempt globals env ip).2 as [e|[]];
    cbn [resolved]; [|done].
  pose proof (except_herror_not_true e) as Hne.
  destruct (WebOS.except_herror globals e).2 as [e'|[|]]; done.
Qed.

End ProbeFacts.

(** C3 (the code departs from it). [webos_discovery.py] uses [socket]
    without importing it.  With [nc] missing and port 3000 open, each pass
    of the socket loop ends in a [NameError] that its handler swallows, the
    reverse lookup raises the same error, and the outer handler answers
    [False]; no connection is ever opened.  Had the module bound the name,
    the answer would be [True] after one connection and without a reverse
    lookup. *)
Theorem test_connection_socket_unbound :
  ("socket" ∉ WebOS.module_globals) ∧
  WebOS.test_connection env_nc_missing_port_3000_open "192.168.1.5"
    = ([WebOS.Sys_nc "192.168.1.5" "3000"], inr false) ∧
  WebOS.test_connection_in ("socket" :: WebOS.module_globals)
      env_nc_missing_port_3000_open "192.168.1.5"
    = ([WebOS.Sys_nc "192.168.1.5" "3000";
        WebOS.Sys_connect_ex "192.168.1.5" 3000], inr true).
Proof.
  split; [|split; by vm_compute].
  intros Hin%list_elem_of_In. simpl in Hin. intuition discriminate.
Qed.

(** The part of the chain that holds whatever names the module binds:
    when [nc] succeeds on no port, no TCP connection succeeds on any port
    and the reverse lookup fails, [test_connection] returns [False]; and no
    probe ever raises, whatever the methods do. *)
Lemma test_connection_false_when_all_fail
    (globals : list string) (env : WebOS.ProbeEnv) (ip : string) :
  (∀ port, port ∈ WebOS.ports -> WebOS.nc env ip port ≠ inr 0%Z) ->
  (∀ port, port ∈ WebOS.webos_ports ->
     WebOS.connect_ex env ip port ≠ inr 0%Z) ->
  WebOS.gethostbyaddr env ip ≠ inr () ->
  (WebOS.test_connection_in globals env ip).2 = inr false ∧
  (∀ env' ip', ∃ verdict,
     (WebOS.test_connection_in globals env' ip').2 = inr verdict).
Proof.
  intros Hnc Hsock Hdns. split.
  - rewrite test_connection_verdict.
    rewrite test_connection_nc_fails by done.
    rewrite resolve_attempt_fails by done. cbn [succeeded orb].
    rewrite orb_false_r. f_equal. apply not_true_iff_false.
    rewrite existsb_exists. intros (port & Hin & Hc).
    rewrite socket_attempt_fails in Hc; [done|].
    apply Hsock. by apply list_elem_of_In.
  - intros env' ip'. rewrite test_connection_verdict. eauto.
Qed.

Example test_connection_unreachable :
  WebOS.test_connection env_unreachable "192.168.1.5"
  = (WebOS.Sys_nc "192.168.1.5" <$> WebOS.ports, inr false).
Proof. by vm_compute. Qed.

(** C6 (the code departs from it). The claim has two halves.  That the
    failure of all three methods gives [False] without an exception holds
    (see above).  That only their exhaustion gives [False] does not: with
    [socket] unbound in the module, the socket and reverse-lookup methods
    are never carried out.  With [nc] missing, every connection refused and
    an address that has a name, the reverse lookup would succeed, yet
    [test_connection] answers [False] after the one [nc] run, without any
    connection or lookup.  Had the module bound the name, it would try the
    five ports, make the lookup and answer [True]. *)
Theorem test_connection_false_though_resolvable :
  WebOS.gethostbyaddr env_only_resolvable "192.168.1.5" = inr () ∧
  WebOS.test_connection env_only_resolvable "192.168.1.5"
    = ([WebOS.Sys_nc "192.168.1.5" "3000"], inr false) ∧
  WebOS.test_connection_in ("socket" :: WebOS.module_globals)
      env_only_resolvable "192.168.1.5"
    = ([WebOS.Sys_nc "192.168.1.5" "3000";
        WebOS.Sys_connect_ex "192.168.1.5" 3000;
        WebOS.Sys_connect_ex "192.168.1.5" 3001;
        WebOS.Sys_connect_ex "192.168.1.5" 8080;
        WebOS.Sys_connect_ex "192.168.1.5" 8001;
        WebOS.Sys_connect_ex "192.168.1.5" 8002;
        WebOS.Sys_gethostbyaddr "192.168.1.5"], inr true).
Proof. repeat split; by vm_compute. Qed.

(** ** The factory *)

Section FactoryFacts.

Import Factory.

Context (tizen_registers android_registers : bool).

Abbreviation get_discovery :=
  (get_discovery tizen_registers android_registers).
Abbreviation lazy_register :=
  (lazy_register tizen_registers android_registers).
Abbreviation import_module :=
  (import_module tizen_registers android_registers).
Abbreviation registers_on_import :=
  (registers_on_import tizen_registers android_registers).
Abbreviation on_import :=
  (constructed_on_import tizen_registers android_registers).
Abbreviation by_factory :=
  (constructed_by_factory tizen_registers android_registers).

Lemma import_module_constructed c st :
  constructed (import_module c st)
  = constructed st ++ on_import c st.
Proof.
  unfold Factory.import_module, constructed_on_import.
  case_bool_decide; [by rewrite app_nil_r|].
  destruct (registers_on_import c); simpl; [done|by rewrite app_nil_r].
Qed.

Lemma lazy_register_constructed c st :
  constructed (lazy_register c st)
  = constructed st ++ on_import c st
      ++ [by_factory c st].
Proof.
  unfold Factory.lazy_register, constructed_by_factory. simpl.
  rewrite import_module_constructed. by rewrite <- app_assoc.
Qed.

Lemma lazy_register_lookup c st :
  _discoveries (lazy_register c st) !! tv_type_of c
  = Some (by_factory c st).
Proof.
  unfold Factory.lazy_register, constructed_by_factory. simpl.
  rewrite lookup_insert_eq. by rewrite import_module_constructed.
Qed.

Lemma get_discovery_hit tv_type st obj :
  _discoveries st !! tv_type = Some obj ->
  get_discovery tv_type st = (Some obj, st).
Proof.
  intros Hl. unfold Factory.get_discovery.
  rewrite bool_decide_eq_true_2; [by rewrite Hl|].
  apply elem_of_dom. by exists obj.
Qed.

Lemma get_discovery_builtin_miss c st :
  _discoveries st !! tv_type_of c = None ->
  get_discovery (tv_type_of c) st
  = (Some (by_factory c st), lazy_register c st).
Proof.
  intros Hl. unfold Factory.get_discovery.
  rewrite bool_decide_eq_false_2.
  2:{ rewrite elem_of_dom, Hl. by intros [? [=]]. }
  destruct c; simpl;
    by rewrite <- (lazy_register_lookup _ st).
Qed.

Lemma get_discovery_unknown tv_type st :
  (∀ c, tv_type ≠ tv_type_of c) ->
  _discoveries st !! tv_type = None ->
  get_discovery tv_type st = (None, st).
Proof.
  intros Hne Hl. unfold Factory.get_discovery.
  rewrite bool_decide_eq_false_2.
  2:{ rewrite elem_of_dom, Hl. by intros [? [=]]. }
  destruct (String.eqb_spec tv_type "webos") as [->|_].
  { by destruct (Hne WebOSDiscovery). }
  destruct (String.eqb_spec tv_type "tizen") as [->|_].
  { by destruct (Hne TizenDiscovery). }
  destruct (String.eqb_spec tv_type "android") as [->|_].
  { by destruct (Hne AndroidDiscovery). }
  by rewrite Hl.
Qed.

Lemma tv_type_cases tv_type :
  (∃ c, tv_type = tv_type_of c) ∨ (∀ c, tv_type ≠ tv_type_of c).
Proof.
  destruct (decide (tv_type = "webos")) as [->|H1];
    [left; by exists WebOSDiscovery|].
  destruct (decide (tv_type = "tizen")) as [->|H2];
    [left; by exists TizenDiscovery|].
  destruct (decide (tv_type = "android")) as [->|H3];
    [left; by exists AndroidDiscovery|].
  right. by intros [].
Qed.

(** A second request is answered from [_discoveries]. *)
Lemma get_discovery_twice tv_type st :
  get_discovery tv_type (get_discovery tv_type st).2
  = get_discovery tv_type st.
Proof.
  destruct (_discoveries st !! tv_type) as [obj|] eqn:Hl.
  { rewrite (get_discovery_hit _ _ _ Hl). simpl.
    by rewrite (get_discovery_hit _ _ _ Hl). }
  destruct (tv_type_cases tv_type) as [[c ->]|Hne].
  - rewrite (get_discovery_builtin_miss _ _ Hl). simpl.
    apply get_discovery_hit, lazy_register_lookup.
  - rewrite (get_discovery_unknown _ _ Hne Hl). simpl.
    by apply get_discovery_unknown.
Qed.

End FactoryFacts.

(** C7, as the code has it: in a fresh interpreter the first request for
    'webos' constructs two instances.  The import of [webos_discovery] runs
    the registration that ends the module, and the branch of [get_discovery]
    then constructs and registers a second instance in its place. *)
Lemma get_discovery_webos_constructs_twice :
  (Factory.get_discovery false false "webos" Factory.fresh).1
    = Some {| Factory.inst_id := 1;
              Factory.inst_class := Factory.WebOSDiscovery |} ∧
  Factory.constructed
    (Factory.get_discovery false false "webos" Factory.fresh).2
    = [{| Factory.inst_id := 0;
          Factory.inst_class := Factory.WebOSDiscovery |};
       {| Factory.inst_id := 1;
          Factory.inst_class := Factory.WebOSDiscovery |}] ∧
  ¬ (length (Factory.constructed
               (Factory.get_discovery false false "webos" Factory.fresh).2)
     ≤ 1)%nat.
Proof. split; [by vm_compute|]. split; [by vm_compute|]. vm_compute. lia. Qed.

(** C7, amended. Whether or not the Tizen and Android modules register on
    import, and from any interpreter state: a second request for a key
    returns the same instance as the first and changes nothing, so it
    constructs nothing; a registered key is answered from [_discoveries]
    without any construction; the first request for an unregistered built-in
    key returns an instance of that family that the factory has just
    constructed and registered, preceded by one more construction exactly
    when the request is the first import of a module that registers at its
    end; a key that is neither registered nor built in gives [None] and
    changes nothing. *)
Theorem get_discovery_cached
    (tizen_registers android_registers : bool)
    (tv_type : string) (st : Factory.Interp) :
  let get := Factory.get_discovery tizen_registers android_registers in
  (get tv_type (get tv_type st).2).1 = (get tv_type st).1 ∧
  (get tv_type (get tv_type st).2).2 = (get tv_type st).2 ∧
  (∀ obj, Factory._discoveries st !! tv_type = Some obj ->
     get tv_type st = (Some obj, st)) ∧
  (∀ c, tv_type = Factory.tv_type_of c ->
     Factory._discoveries st !! tv_type = None ->
     ∃ obj,
       (get tv_type st).1 = Some obj ∧
       Factory._discoveries (get tv_type st).2 !! tv_type = Some obj ∧
       Factory.inst_class obj = c ∧
       Factory.constructed (get tv_type st).2
       = Factory.constructed st
           ++ constructed_on_import tizen_registers android_registers c st
           ++ [obj] ∧
       (length (constructed_on_import tizen_registers android_registers c st)
        ≤ 1)%nat) ∧
  ((∀ c, tv_type ≠ Factory.tv_type_of c) ->
   Factory._discoveries st !! tv_type = None ->
   get tv_type st = (None, st)).
Proof.
  intros get. unfold get. rewrite get_discovery_twice.
  split; [done|]. split; [done|]. split; [|split].
  - intros obj. apply get_discovery_hit.
  - intros c -> Hl. rewrite (get_discovery_builtin_miss _ _ _ _ Hl). simpl.
    eexists. split; [done|]. split; [apply lazy_register_lookup|].
    split; [done|]. split; [apply lazy_register_constructed|].
    unfold constructed_on_import. case_bool_decide; simpl; [lia|].
    destruct (Factory.registers_on_import _ _ c); simpl; lia.
  - apply get_discovery_unknown.
Qed.

Lemma get_discovery_cached_witness :
  ∃ obj,
    (Factory.get_discovery false false "webos" Factory.fresh).1 = Some obj ∧
    Factory._discoveries
      (Factory.get_discovery false false "webos" Factory.fresh).2 !! "webos"
      = Some obj ∧
    Factory.inst_class obj = Factory.WebOSDiscovery ∧
    Factory.constructed
      (Factory.get_discovery false false "webos" Factory.fresh).2
    = Factory.constructed Factory.fresh
        ++ constructed_on_import false false Factory.WebOSDiscovery
             Factory.fresh
        ++ [obj] ∧
    (length (constructed_on_import false false Factory.WebOSDiscovery
               Factory.fresh) ≤ 1)%nat.
Proof.
  refine (proj1 (proj2 (proj2 (proj2
            (get_discovery_cached false false "webos" Factory.fresh))))
            Factory.WebOSDiscovery _ _).
  - reflexivity.
  - reflexivity.
Defined.

(** ** [send_wol] *)

Section WolFacts.

Import LGTVControl.

Lemma hex_digit_not_space c :
  is_Some (hex_value c) -> hex_space c = false.
Proof.
  destruct c as [[] [] [] [] [] [] [] []]; vm_compute;
    first [reflexivity | intros [? [=]]].
Qed.

Lemma hex_value_range c v :
  hex_value c = Some v -> (0 ≤ v < 16)%Z.
Proof.
  destruct c as [[] [] [] [] [] [] [] []]; vm_compute;
    intros [= <-]; split; discriminate || reflexivity.
Qed.

Lemma append_nil_l (t : string) : "" +:+ t = t.
Proof. reflexivity. Qed.

Lemma append_cons c (s t : string) : String c s +:+ t = String c (s +:+ t).
Proof. reflexivity. Qed.

Lemma append_nil_r (s : string) : s +:+ "" = s.
Proof.
  induction s as [|c s IH]; [done|]. by rewrite append_cons, IH.
Qed.

Lemma string_app_length (s t : string) :
  String.length (s +:+ t) = (String.length s + String.length t)%nat.
Proof.
  induction s as [|c s IH]; [done|].
  rewrite append_cons. simpl. by rewrite IH.
Qed.

Lemma all_hex_app s t : all_hex (s +:+ t) = all_hex s && all_hex t.
Proof.
  induction s as [|c s IH]; [done|].
  rewrite append_cons. simpl. by rewrite IH, andb_assoc.
Qed.

(** Two strings of digits read two by two, by induction on half the length
    of the first. *)
Lemma even_string_ind (P : string -> Prop) :
  P EmptyString ->
  (∀ c c' s, P s -> P (String c (String c' s))) ->
  ∀ n s, String.length s = (2 * n)%nat -> P s.
Proof.
  intros H0 H2. induction n as [|n IH]; intros s Hlen.
  - destruct s; [done|discriminate].
  - destruct s as [|c [|c' s]]; simpl in Hlen; try lia.
    apply H2, IH. lia.
Qed.

Lemma fromhex_app_digits n s t :
  String.length s = (2 * n)%nat -> all_hex s = true ->
  fromhex (s +:+ t)
  = match fromhex t with
    | inr data => inr (hex_pairs s ++ data)
    | inl e => inl e
    end.
Proof.
  revert n s.
  apply (even_string_ind (λ s, all_hex s = true ->
           fromhex (s +:+ t)
           = match fromhex t with
             | inr data => inr (hex_pairs s ++ data)
             | inl e => inl e
             end)).
  - intros _. rewrite append_nil_l. by destruct (fromhex t).
  - intros c c' s IH Hhex. simpl in Hhex.
    apply andb_true_iff in Hhex as [Hc Hhex].
    apply andb_true_iff in Hhex as [Hc' Hhex].
    apply bool_decide_eq_true in Hc, Hc'.
    rewrite !append_cons. cbn [fromhex hex_pairs].
    rewrite (hex_digit_not_space c Hc).
    destruct Hc as [v Hv], Hc' as [v' Hv']. rewrite Hv, Hv'.
    rewrite (IH Hhex). simpl. by destruct (fromhex t).
Qed.

Lemma hex_pairs_app n s t :
  String.length s = (2 * n)%nat ->
  hex_pairs (s +:+ t) = hex_pairs s ++ hex_pairs t.
Proof.
  revert n s.
  apply (even_string_ind
           (λ s, hex_pairs (s +:+ t) = hex_pairs s ++ hex_pairs t)); [done|].
  intros c c' s IH. rewrite !append_cons. cbn [hex_pairs]. by rewrite IH.
Qed.

Lemma hex_pairs_length n s :
  String.length s = (2 * n)%nat -> length (hex_pairs s) = n.
Proof.
  revert s. induction n as [|n IH]; intros s Hlen.
  - by destruct s.
  - destruct s as [|c [|c' s]]; simpl in Hlen; try lia.
    simpl. f_equal. apply IH. lia.
Qed.

Lemma hex_pairs_range s :
  all_hex s = true -> Forall (λ b, (0 ≤ b < 256)%Z) (hex_pairs s).
Proof.
  assert (∀ n s, (String.length s ≤ n)%nat -> all_hex s = true ->
            Forall (λ b, (0 ≤ b < 256)%Z) (hex_pairs s)) as H;
    [|by apply (H (String.length s))].
  clear s. induction n as [|n IH]; intros s Hlen Hhex.
  - destruct s; [constructor|simpl in Hlen; lia].
  - destruct s as [|c [|c' s]]; try constructor.
    + simpl in Hhex.
      apply andb_true_iff in Hhex as [Hc Hhex].
      apply andb_true_iff in Hhex as [Hc' Hhex].
      apply bool_decide_eq_true in Hc as [v Hv].
      apply bool_decide_eq_true in Hc' as [v' Hv'].
      rewrite Hv, Hv'. simpl.
      apply hex_value_range in Hv, Hv'. lia.
    + apply IH; [simpl in Hlen; lia|].
      simpl in Hhex.
      apply andb_true_iff in Hhex as [_ Hhex].
      by apply andb_true_iff in Hhex as [_ Hhex].
Qed.

Lemma str_mul_length s k :
  String.length (str_mul s k) = (k * String.length s)%nat.
Proof.
  induction k as [|k IH]; simpl; [done|].
  by rewrite string_app_length, IH.
Qed.

Lemma str_mul_all_hex s k : all_hex s = true -> all_hex (str_mul s k) = true.
Proof.
  intros Hs. induction k as [|k IH]; simpl; [done|].
  by rewrite all_hex_app, Hs, IH.
Qed.

Lemma hex_pairs_str_mul n s k :
  String.length s = (2 * n)%nat ->
  hex_pairs (str_mul s k) = concat (replicate k (hex_pairs s)).
Proof.
  intros Hlen. induction k as [|k IH]; simpl; [done|].
  by rewrite (hex_pairs_app n), IH.
Qed.

(** The packet that a twelve-digit address decodes to. *)
Lemma magic_packet_decoded digits :
  String.length digits = 12%nat -> all_hex digits = true ->
  fromhex (str_mul "FF" 6 +:+ str_mul digits 16)
  = inr (replicate 6 255%Z ++ concat (replicate 16 (hex_pairs digits))).
Proof.
  intros Hlen Hhex.
  rewrite (fromhex_app_digits 6); [|done|done].
  rewrite <- (append_nil_r (str_mul digits 16)).
  rewrite (fromhex_app_digits 96).
  - cbn [fromhex]. cbv beta iota. rewrite app_nil_r.
    rewrite (hex_pairs_str_mul 6 digits) by done. reflexivity.
  - rewrite str_mul_length, Hlen. reflexivity.
  - by apply str_mul_all_hex.
Qed.

End WolFacts.

(** X1. A well-formed address gives the magic packet.  When the address
    without its colons and dashes is twelve hexadecimal digits and the
    socket calls succeed, [send_wol] creates a socket, enables broadcast and
    sends once, to broadcast port 9, a packet of 102 bytes: six bytes 255
    followed by sixteen copies of the six bytes of the address. *)
Theorem send_wol_magic_packet
    (env : LGTVControl.WolEnv) (mac_address : string) :
  String.length (wol_digits mac_address) = 12%nat ->
  all_hex (wol_digits mac_address) = true ->
  LGTVControl.socket_socket env = inr () ->
  LGTVControl.setsockopt env = inr () ->
  (∀ data, ∃ sent, LGTVControl.sendto env data "<broadcast>" 9%Z = inr sent) ->
  let mac_bytes := hex_pairs (wol_digits mac_address) in
  let packet := replicate 6 255%Z ++ concat (replicate 16 mac_bytes) in
  LGTVControl.send_wol env mac_address
  = ([LGTVControl.Socket_created; LGTVControl.Setsockopt_broadcast;
      LGTVControl.Sendto packet "<broadcast>" 9%Z;
      LGTVControl.Printed "Wake-on-LAN magic packet sent successfully."],
     inr ()) ∧
  length mac_bytes = 6%nat ∧
  length packet = 102%nat ∧
  Forall (λ b, (0 ≤ b < 256)%Z) packet.
Proof.
  intros Hlen Hhex Hsock Hopt Hsend mac_bytes packet.
  assert (length mac_bytes = 6%nat) as Hmac
    by (by apply hex_pairs_length; rewrite Hlen).
  split; [|split; [done|split]].
  - unfold LGTVControl.send_wol, LGTVControl.send_wol_try.
    fold (wol_digits mac_address).
    rewrite Hlen. cbn [Nat.eqb negb].
    rewrite (magic_packet_decoded _ Hlen Hhex).
    fold mac_bytes. fold packet.
    destruct (Hsend packet) as [sent Hsent].
    rewrite Hsock, Hopt. unfold bind at 2. unfold ret at 1.
    unfold bind at 1. rewrite Hsent. reflexivity.
  - unfold packet. rewrite length_app, length_replicate.
    rewrite length_concat.
    assert (∀ k, list_sum (map length (replicate k mac_bytes)) = (k * 6)%nat)
      as Hsum.
    { induction k as [|k IH]; simpl; [done|]. rewrite IH, Hmac. lia. }
    rewrite Hsum. reflexivity.
  - unfold packet. apply Forall_app. split.
    + apply Forall_replicate. lia.
    + apply Forall_concat, Forall_replicate. by apply hex_pairs_range.
Qed.

Lemma send_wol_magic_packet_witness :
  LGTVControl.send_wol wol_env_ok "7C:AB:25:11:22:33"
  = ([LGTVControl.Socket_created; LGTVControl.Setsockopt_broadcast;
      LGTVControl.Sendto
        (replicate 6 255%Z
         ++ concat (replicate 16 (hex_pairs (wol_digits "7C:AB:25:11:22:33"))))
        "<broadcast>" 9%Z;
      LGTVControl.Printed "Wake-on-LAN magic packet sent successfully."],
     inr ()).
Proof.
  refine (proj1 (send_wol_magic_packet wol_env_ok "7C:AB:25:11:22:33"
                   _ _ _ _ _)).
  - reflexivity.
  - reflexivity.
  - reflexivity.
  - reflexivity.
  - intros data. eexists. reflexivity.
Defined.

Section WolRejects.

Import LGTVControl.

(** [fromhex] on a string and on the same string after one more character:
    the two-step shape of its recursion. *)
Lemma fromhex_pair_ind (P : string -> Prop) :
  P EmptyString ->
  (∀ c, P (String c EmptyString)) ->
  (∀ c c' s, P s -> P (String c' s) -> P (String c (String c' s))) ->
  ∀ s, P s.
Proof.
  intros H0 H1 H2 s.
  assert (P s ∧ ∀ c, P (String c s)) as [Hs _]; [|done].
  induction s as [|c' s [IH1 IH2]]; [by split|].
  split; [apply IH2|]. intros c. by apply H2.
Qed.

Lemma fromhex_rejects s :
  str_exists not_hex_nor_space s = true -> ∃ e, fromhex s = inl e.
Proof.
  induction s as [|c|c c' s IH IH'] using fromhex_pair_ind.
  - done.
  - intros Hex. cbn [fromhex].
    destruct (hex_space c) eqn:Hsp.
    + cbn [str_exists] in Hex. unfold not_hex_nor_space in Hex.
      rewrite Hsp, andb_false_r in Hex. done.
    + destruct (hex_value c); eauto.
  - intros Hex. cbn [fromhex].
    destruct (hex_space c) eqn:Hsp.
    + apply IH'. cbn [str_exists] in Hex.
      unfold not_hex_nor_space at 1 in Hex.
      rewrite Hsp, andb_false_r in Hex. exact Hex.
    + destruct (hex_value c) as [v|] eqn:Hv; [|by eauto].
      destruct (hex_value c') as [v'|] eqn:Hv'; [|by eauto].
      destruct IH as [e He].
      * cbn [str_exists] in Hex. unfold not_hex_nor_space at 1 2 in Hex.
        rewrite Hv, Hv' in Hex.
        rewrite !bool_decide_eq_true_2 in Hex by eauto. exact Hex.
      * rewrite He. eauto.
Qed.

Lemma str_exists_app p s t :
  str_exists p (s +:+ t) = str_exists p s || str_exists p t.
Proof.
  induction s as [|c s IH]; [done|].
  rewrite append_cons. simpl. by rewrite IH, orb_assoc.
Qed.

End WolRejects.

(** X2. A malformed address sends nothing.  When the address without its
    colons and dashes is not twelve characters long, or holds a character
    that is neither a hexadecimal digit nor white space, [send_wol] only
    prints the failure: no socket is created and nothing is sent. *)
Theorem send_wol_rejects_malformed
    (env : LGTVControl.WolEnv) (mac_address : string) :
  String.length (wol_digits mac_address) ≠ 12%nat
  ∨ str_exists not_hex_nor_space (wol_digits mac_address) = true ->
  ∃ e, LGTVControl.send_wol env mac_address
       = ([LGTVControl.Printed_wol_failure e], inr ()).
Proof.
  intros H. unfold LGTVControl.send_wol, LGTVControl.send_wol_try.
  fold (wol_digits mac_address).
  destruct (Nat.eqb_spec (String.length (wol_digits mac_address)) 12)
    as [Hlen|Hlen].
  - destruct H as [H|H]; [done|]. cbn [negb].
    destruct (fromhex_rejects
                (LGTVControl.str_mul "FF" 6
                 +:+ LGTVControl.str_mul (wol_digits mac_address) 16))
      as [e He].
    { rewrite str_exists_app. cbn [LGTVControl.str_mul].
      rewrite (str_exists_app _ (wol_digits mac_address)), H.
      by rewrite orb_true_r. }
    rewrite He. by exists e.
  - cbn [negb]. by eexists.
Qed.

Lemma send_wol_rejects_malformed_witness :
  ∃ e, LGTVControl.send_wol wol_env_ok "7C:AB:25:11:22"
       = ([LGTVControl.Printed_wol_failure e], inr ()).
Proof.
  apply (send_wol_rejects_malformed wol_env_ok "7C:AB:25:11:22").
  left. simpl. lia.
Defined.

(** X3. [send_wol] never raises, whatever the address and whatever the
    socket does; and a datagram it hands to [sendto] goes to broadcast port
    9, for an address of twelve characters once colons and dashes are
    removed, and is the decoding of six times "FF" followed by sixteen times
    these characters. *)
Theorem send_wol_never_raises
    (env : LGTVControl.WolEnv) (mac_address : string) :
  (LGTVControl.send_wol env mac_address).2 = inr () ∧
  ∀ data host port,
    LGTVControl.Sendto data host port
      ∈ (LGTVControl.send_wol env mac_address).1 ->
    host = "<broadcast>" ∧ port = 9%Z ∧
    String.length (wol_digits mac_address) = 12%nat ∧
    LGTVControl.fromhex
      (LGTVControl.str_mul "FF" 6
       +:+ LGTVControl.str_mul (wol_digits mac_address) 16) = inr data.
Proof.
  unfold LGTVControl.send_wol, LGTVControl.send_wol_try.
  fold (wol_digits mac_address).
  destruct (Nat.eqb_spec (String.length (wol_digits mac_address)) 12)
    as [Hlen|Hlen]; cbn [negb].
  2:{ split; [done|]. simpl.
      intros data host port [=]%list_elem_of_singleton. }
  destruct (LGTVControl.fromhex _) as [e|packet] eqn:Hdec.
  { split; [done|]. simpl.
    intros data host port [=]%list_elem_of_singleton. }
  destruct env as [[e1|[]] [e2|[]] send]; simpl.
  - split; [done|]. intros data host port Hin.
    repeat (apply elem_of_cons in Hin as [[=]|Hin]).
    by apply elem_of_nil in Hin.
  - split; [done|]. intros data host port Hin.
    repeat (apply elem_of_cons in Hin as [[=]|Hin]).
    by apply elem_of_nil in Hin.
  - split; [done|]. intros data host port Hin.
    repeat (apply elem_of_cons in Hin as [[=]|Hin]).
    by apply elem_of_nil in Hin.
  - destruct (send packet "<broadcast>" 9%Z) as [e|n]; simpl.
    + split; [done|]. intros data host port Hin.
      repeat (apply elem_of_cons in Hin as [Heq|Hin]);
        try discriminate Heq; [|by apply elem_of_nil in Hin].
      by injection Heq as -> -> ->.
    + split; [done|]. intros data host port Hin.
      repeat (apply elem_of_cons in Hin as [Heq|Hin]);
        try discriminate Heq; [|by apply elem_of_nil in Hin].
      by injection Heq as -> -> ->.
Qed.

Lemma send_wol_never_raises_witness :
  "<broadcast>" = "<broadcast>" ∧ 9%Z = 9%Z ∧
  String.length (wol_digits "7C-AB-25-11-22-33") = 12%nat ∧
  LGTVControl.fromhex
    (LGTVControl.str_mul "FF" 6
     +:+ LGTVControl.str_mul (wol_digits "7C-AB-25-11-22-33") 16)
  = inr (replicate 6 255%Z
         ++ concat (replicate 16 [124; 171; 37; 17; 34; 51]%Z)).
Proof.
  refine (proj2 (send_wol_never_raises wol_env_ok "7C-AB-25-11-22-33")
            _ "<broadcast>" 9%Z _).
  vm_compute. apply elem_of_cons. right. apply elem_of_cons. right.
  apply elem_of_cons. left. reflexivity.
Defined.

(** ** Letter case *)

Ltac by_ascii_cases c :=
  destruct c as [[] [] [] [] [] [] [] []]; vm_compute; reflexivity.

Lemma lower_upper_char c : lower_char (upper_char c) = lower_char c.
Proof. by_ascii_cases c. Qed.

Lemma upper_lower_char c : upper_char (lower_char c) = upper_char c.
Proof. by_ascii_cases c. Qed.

Lemma map_str_compose f g s : map_str f (map_str g s) = map_str (λ c, f (g c)) s.
Proof. induction s as [|c s IH]; simpl; [done|]. by rewrite IH. Qed.

Lemma map_str_ext f g s : (∀ c, f c = g c) -> map_str f s = map_str g s.
Proof. intros H. induction s as [|c s IH]; simpl; [done|]. by rewrite H, IH. Qed.

Lemma map_str_length f s : String.length (map_str f s) = String.length s.
Proof. induction s as [|c s IH]; simpl; [done|]. by rewrite IH. Qed.

Lemma map_str_app f (s t : string) :
  map_str f (s +:+ t) = map_str f s +:+ map_str f t.
Proof.
  induction s as [|c s IH]; [done|].
  rewrite append_cons. simpl. by rewrite append_cons, IH.
Qed.

Lemma lower_upper s : lower (upper s) = lower s.
Proof.
  unfold lower, upper. rewrite map_str_compose.
  apply map_str_ext, lower_upper_char.
Qed.

Lemma upper_lower s : upper (lower s) = upper s.
Proof.
  unfold lower, upper. rewrite map_str_compose.
  apply map_str_ext, upper_lower_char.
Qed.

Lemma lower_lower s : lower (lower s) = lower s.
Proof.
  unfold lower. rewrite map_str_compose.
  apply map_str_ext. intros c. by_ascii_cases c.
Qed.

Section WolCase.

Import LGTVControl.

(** A change of characters that moves no character to or from [old]. *)
Lemma remove_char_map f old s :
  (∀ c, Ascii.eqb (f c) old = Ascii.eqb c old) ->
  remove_char old (map_str f s) = map_str f (remove_char old s).
Proof.
  intros Hf. induction s as [|c s IH]; simpl; [done|].
  rewrite Hf. destruct (Ascii.eqb c old); simpl; by rewrite IH.
Qed.

Lemma fromhex_cons2 c c' s :
  fromhex (String c (String c' s))
  = if hex_space c then fromhex (String c' s)
    else match hex_value c with
         | Some top =>
             match hex_value c' with
             | Some bot =>
                 match fromhex s with
                 | inr data => inr ((16 * top + bot)%Z :: data)
                 | inl e => inl e
                 end
             | None =>
                 inl (ValueError "non-hexadecimal number found in fromhex() arg")
             end
         | None =>
             inl (ValueError "non-hexadecimal number found in fromhex() arg")
         end.
Proof. reflexivity. Qed.

Lemma fromhex_map f s :
  (∀ c, hex_space (f c) = hex_space c) ->
  (∀ c, hex_value (f c) = hex_value c) ->
  fromhex (map_str f s) = fromhex s.
Proof.
  intros Hsp Hv.
  induction s as [|c|c c' s IH IH'] using fromhex_pair_ind.
  - done.
  - cbn [map_str fromhex]. by rewrite Hsp, Hv.
  - cbn [map_str] in *. rewrite !fromhex_cons2, Hsp, !Hv.
    destruct (hex_space c); [exact IH'|]. by rewrite IH.
Qed.

Lemma str_mul_map f s k : map_str f (str_mul s k) = str_mul (map_str f s) k.
Proof.
  induction k as [|k IH]; simpl; [done|]. by rewrite map_str_app, IH.
Qed.

Lemma wol_digits_map f s :
  (∀ c, Ascii.eqb (f c) ":" = Ascii.eqb c ":") ->
  (∀ c, Ascii.eqb (f c) "-" = Ascii.eqb c "-") ->
  wol_digits (map_str f s) = map_str f (wol_digits s).
Proof.
  intros H1 H2. unfold wol_digits.
  by rewrite (remove_char_map f ":"%char), (remove_char_map f "-"%char).
Qed.

(** [send_wol] reads its argument through [wol_digits] only. *)
Lemma send_wol_by_digits env mac mac' :
  String.length (wol_digits mac) = String.length (wol_digits mac') ->
  fromhex (str_mul "FF" 6 +:+ str_mul (wol_digits mac) 16)
  = fromhex (str_mul "FF" 6 +:+ str_mul (wol_digits mac') 16) ->
  send_wol env mac = send_wol env mac'.
Proof.
  intros Hlen Hdec. unfold send_wol, send_wol_try.
  fold (wol_digits mac). fold (wol_digits mac').
  by rewrite Hlen, Hdec.
Qed.

Lemma send_wol_map f env mac :
  (∀ c, Ascii.eqb (f c) ":" = Ascii.eqb c ":") ->
  (∀ c, Ascii.eqb (f c) "-" = Ascii.eqb c "-") ->
  (∀ c, hex_space (f c) = hex_space c) ->
  (∀ c, hex_value (f c) = hex_value c) ->
  send_wol env (map_str f mac) = send_wol env mac.
Proof.
  intros H1 H2 Hsp Hv. apply send_wol_by_digits.
  - by rewrite wol_digits_map, map_str_length.
  - rewrite wol_digits_map by done.
    rewrite !(fromhex_app_digits 6 (str_mul "FF" 6)) by done.
    by rewrite <- str_mul_map, fromhex_map.
Qed.

Lemma remove_char_idem old s :
  remove_char old (remove_char old s) = remove_char old s.
Proof.
  induction s as [|c s IH]; simpl; [done|].
  destruct (Ascii.eqb c old) eqn:Hc; simpl; [done|]. by rewrite Hc, IH.
Qed.

Lemma remove_char_comm a b s :
  remove_char a (remove_char b s) = remove_char b (remove_char a s).
Proof.
  induction s as [|c s IH]; simpl; [done|].
  destruct (Ascii.eqb c b) eqn:Hb, (Ascii.eqb c a) eqn:Ha; simpl;
    rewrite ?Ha, ?Hb, ?IH; done.
Qed.

Lemma wol_digits_idem s : wol_digits (wol_digits s) = wol_digits s.
Proof.
  unfold wol_digits.
  rewrite (remove_char_comm ":"%char "-"%char (remove_char ":"%char s)).
  by rewrite !remove_char_idem.
Qed.

End WolCase.

(** X4. [send_wol] does not depend on the letter case of the address nor
    on where its colons and dashes stand: the address in upper case, in
    lower case, or with all colons and dashes removed, gives the same socket
    calls, the same packet and the same printed line. *)
Theorem send_wol_ignores_case_and_separators
    (env : LGTVControl.WolEnv) (mac_address : string) :
  LGTVControl.send_wol env (upper mac_address)
    = LGTVControl.send_wol env mac_address ∧
  LGTVControl.send_wol env (lower mac_address)
    = LGTVControl.send_wol env mac_address ∧
  LGTVControl.send_wol env (wol_digits mac_address)
    = LGTVControl.send_wol env mac_address.
Proof.
  split; [|split].
  - apply send_wol_map; intros c; by_ascii_cases c.
  - apply send_wol_map; intros c; by_ascii_cases c.
  - apply send_wol_by_digits; by rewrite wol_digits_idem.
Qed.

(** ** [launch_app] *)

Section LaunchFacts.

Import LGTVControl.

Context (unicode_lower : string -> string).
Context (env : AppEnv) (app_name : string).

Lemma next_match_first pre app post :
  (∀ a, a ∈ pre -> title_matches unicode_lower app_name a = inr false) ->
  title_matches unicode_lower app_name app = inr true ->
  next_match unicode_lower app_name (pre ++ app :: post) = inr (Some app).
Proof.
  intros Hpre Happ. induction pre as [|a pre IH]; simpl.
  - by rewrite Happ.
  - rewrite (Hpre a) by (apply elem_of_cons; auto).
    apply IH. intros a' Hin. apply Hpre. apply elem_of_cons; auto.
Qed.

Lemma next_match_none apps :
  (∀ a, a ∈ apps -> title_matches unicode_lower app_name a = inr false) ->
  next_match unicode_lower app_name apps = inr None.
Proof.
  intros Hall. induction apps as [|a apps IH]; simpl; [done|].
  rewrite (Hall a) by (apply elem_of_cons; auto).
  apply IH. intros a' Hin. apply Hall. apply elem_of_cons; auto.
Qed.

(** What [next] returns is the first application that matches. *)
Lemma next_match_some apps app :
  next_match unicode_lower app_name apps = inr (Some app) ->
  ∃ pre post,
    apps = pre ++ app :: post ∧
    (∀ a, a ∈ pre -> title_matches unicode_lower app_name a = inr false) ∧
    title_matches unicode_lower app_name app = inr true.
Proof.
  induction apps as [|a apps IH]; simpl; [done|].
  destruct (title_matches unicode_lower app_name a) as [e|[|]] eqn:Ha; [done|..].
  - intros [= ->]. exists [], apps. split; [done|]. split; [|done].
    by intros a' ?%elem_of_nil.
  - intros (pre & post & -> & Hpre & Happ)%IH.
    exists (a :: pre), post. split; [done|]. split; [|done].
    intros a' [->|Hin]%elem_of_cons; auto.
Qed.

Lemma launch_app_trace_list_fails e :
  list_apps env = inl e -> (launch_app unicode_lower env app_name).1 = [List_apps].
Proof. intros H. unfold launch_app. by rewrite H. Qed.

(** The calls and printed lines of [launch_app], by what [next] gave. *)
Lemma launch_app_trace_next apps r :
  list_apps env = inr apps -> next_match unicode_lower app_name apps = r ->
  (launch_app unicode_lower env app_name).1
  = match r with
    | inl _ => [List_apps]
    | inr None => [List_apps; Printed (app_name +:+ " app not found.")]
    | inr (Some target) =>
        List_apps :: Launch target ::
          match launch env target with
          | inl _ => []
          | inr _ => [Printed (app_name +:+ " app launched successfully.")]
          end
    end.
Proof.
  intros Hlist <-. unfold launch_app. rewrite Hlist. unfold bind at 1.
  destruct (next_match unicode_lower app_name apps) as [e|[target|]]; [done| |done].
  unfold bind. by destruct (launch env target) as [e|[]].
Qed.

End LaunchFacts.

(** X5. [launch_app] launches the first match, whatever the lower-case
    forms of Unicode are.  When the television lists its applications, the
    lower-case title of each one before [app] does not hold the lower-case
    requested name, that of [app] holds it, and the launch succeeds, then
    [app] is launched, nothing else is, and the success line is printed. *)
Theorem launch_app_first_match
    (unicode_lower : string -> string)
    (env : LGTVControl.AppEnv) (app_name : string)
    (pre post : list LGTVControl.Application) (app : LGTVControl.Application) :
  LGTVControl.list_apps env = inr (pre ++ app :: post) ->
  (∀ a, a ∈ pre ->
     LGTVControl.title_matches unicode_lower app_name a = inr false) ->
  LGTVControl.title_matches unicode_lower app_name app = inr true ->
  LGTVControl.launch env app = inr () ->
  LGTVControl.launch_app unicode_lower env app_name
  = ([LGTVControl.List_apps; LGTVControl.Launch app;
      LGTVControl.Printed (app_name +:+ " app launched successfully.")],
     inr ()).
Proof.
  intros Hlist Hpre Happ Hlaunch. unfold LGTVControl.launch_app.
  rewrite Hlist. unfold bind at 1.
  rewrite (next_match_first unicode_lower app_name pre app post Hpre Happ).
  unfold bind at 1. unfold bind. rewrite Hlaunch. reflexivity.
Qed.

Lemma launch_app_first_match_witness :
  LGTVControl.launch_app lower app_env_ok "plex"
  = ([LGTVControl.List_apps; LGTVControl.Launch app_plex;
      LGTVControl.Printed ("plex" +:+ " app launched successfully.")],
     inr ()).
Proof.
  apply (launch_app_first_match lower app_env_ok "plex"
           [app_netflix] [] app_plex).
  - reflexivity.
  - intros a Hin. apply list_elem_of_singleton in Hin. rewrite Hin.
    vm_compute. reflexivity.
  - vm_compute. reflexivity.
  - reflexivity.
Defined.

(** X6. [launch_app] launches at most one application, and only one that
    the television listed and whose lower-case title holds the lower-case
    requested name, whatever the lower-case forms of Unicode are; when no
    title does, it launches nothing and prints that the application was not
    found. *)
Theorem launch_app_launches_only_matches
    (unicode_lower : string -> string)
    (env : LGTVControl.AppEnv) (app_name : string) :
  (∀ app,
     LGTVControl.Launch app
       ∈ (LGTVControl.launch_app unicode_lower env app_name).1 ->
     ∃ apps title,
       LGTVControl.list_apps env = inr apps ∧
       app ∈ apps ∧
       app !! "title" = Some title ∧
       contains (LGTVControl.str_lower unicode_lower app_name)
         (LGTVControl.str_lower unicode_lower title) = true ∧
       ∀ app', LGTVControl.Launch app'
                 ∈ (LGTVControl.launch_app unicode_lower env app_name).1 ->
               app' = app) ∧
  (∀ apps,
     LGTVControl.list_apps env = inr apps ->
     (∀ a, a ∈ apps ->
        LGTVControl.title_matches unicode_lower app_name a = inr false) ->
     LGTVControl.launch_app unicode_lower env app_name
     = ([LGTVControl.List_apps;
         LGTVControl.Printed (app_name +:+ " app not found.")], inr ())).
Proof.
  split.
  - intros app Hin.
    destruct (LGTVControl.list_apps env) as [e|apps] eqn:Hlist.
    { rewrite (launch_app_trace_list_fails unicode_lower env app_name e Hlist)
        in Hin.
      by apply list_elem_of_singleton in Hin. }
    destruct (LGTVControl.next_match unicode_lower app_name apps)
      as [e|[target|]] eqn:Hn.
    + rewrite (launch_app_trace_next unicode_lower env app_name apps _
                 Hlist Hn) in Hin.
      by apply list_elem_of_singleton in Hin.
    + pose proof (launch_app_trace_next unicode_lower env app_name apps _
                    Hlist Hn) as Htr.
      cbn beta iota in Htr.
      assert (∀ a, LGTVControl.Launch a
                     ∈ (LGTVControl.launch_app unicode_lower env app_name).1
                   -> a = target) as Honly.
      { intros a. rewrite Htr. intros [Heq|Hin']%elem_of_cons; [done|].
        apply elem_of_cons in Hin' as [Heq|Hin']; [by injection Heq|].
        destruct (LGTVControl.launch env target) as [e|[]].
        - by apply elem_of_nil in Hin'.
        - by apply list_elem_of_singleton in Hin'. }
      rewrite (Honly app Hin).
      apply next_match_some in Hn as (pre & post & -> & _ & Ht).
      unfold LGTVControl.title_matches in Ht.
      destruct (target !! "title") as [title|] eqn:Htitle; [|done].
      exists (pre ++ target :: post), title.
      split; [done|].
      split; [apply elem_of_app; right; apply elem_of_cons; auto|].
      split; [done|]. split; [by injection Ht|]. exact Honly.
    + rewrite (launch_app_trace_next unicode_lower env app_name apps _
                 Hlist Hn) in Hin.
      apply elem_of_cons in Hin as [Heq|Hin]; [done|].
      by apply list_elem_of_singleton in Hin.
  - intros apps Hlist Hall. unfold LGTVControl.launch_app.
    rewrite Hlist. unfold bind at 1.
    by rewrite (next_match_none unicode_lower app_name apps Hall).
Qed.

Lemma launch_app_launches_only_matches_witness :
  LGTVControl.launch_app lower app_env_ok "hulu"
  = ([LGTVControl.List_apps;
      LGTVControl.Printed ("hulu" +:+ " app not found.")], inr ()).
Proof.
  refine (proj2 (launch_app_launches_only_matches lower app_env_ok "hulu")
            [app_netflix; app_plex] _ _).
  - reflexivity.
  - intros a Hin. apply elem_of_cons in Hin as [Hin|Hin];
      [|apply list_elem_of_singleton in Hin];
      rewrite Hin; vm_compute; reflexivity.
Defined.

Section LaunchCase.

Import LGTVControl.

Lemma contains_empty s : contains "" s = true.
Proof. by destruct s. Qed.

Lemma is_ascii_upper s : is_ascii (upper s) = is_ascii s.
Proof.
  unfold upper. induction s as [|c s IH]; [done|].
  cbn [map_str is_ascii]. rewrite IH. f_equal. by_ascii_cases c.
Qed.

Lemma is_ascii_lower s : is_ascii (lower s) = is_ascii s.
Proof.
  unfold lower. induction s as [|c s IH]; [done|].
  cbn [map_str is_ascii]. rewrite IH. f_equal. by_ascii_cases c.
Qed.

Context (unicode_lower : string -> string).
Context (Hascii : lower_on_ascii unicode_lower).

Lemma str_lower_ascii s :
  is_ascii s = true -> str_lower unicode_lower s = lower s.
Proof.
  intros Hs. destruct s as [|c s]; [done|]. by apply Hascii.
Qed.

Lemma str_lower_upper s :
  is_ascii s = true ->
  str_lower unicode_lower (upper s) = str_lower unicode_lower s.
Proof.
  intros Hs. rewrite (str_lower_ascii s Hs).
  rewrite (str_lower_ascii (upper s)); [apply lower_upper|].
  by rewrite is_ascii_upper.
Qed.

Lemma str_lower_lower s :
  is_ascii s = true ->
  str_lower unicode_lower (lower s) = str_lower unicode_lower s.
Proof.
  intros Hs. rewrite (str_lower_ascii s Hs).
  rewrite (str_lower_ascii (lower s)); [apply lower_lower|].
  by rewrite is_ascii_lower.
Qed.

Lemma next_match_ext name name' apps :
  str_lower unicode_lower name = str_lower unicode_lower name' ->
  next_match unicode_lower name apps = next_match unicode_lower name' apps.
Proof.
  intros Heq. induction apps as [|a apps IH]; simpl; [done|].
  unfold title_matches. by rewrite Heq, IH.
Qed.

End LaunchCase.

(** X7. On ASCII text the match of [launch_app] ignores letter case.
    For every lower-casing that is the ASCII one on ASCII text, as
    [str.lower] is: a requested name in ASCII selects the same application
    when it is written in upper or in lower case, whatever the titles; and
    a title in ASCII matches or not regardless of its letter case, whatever
    the name.  (Outside ASCII this fails: the upper-case form of a word may
    have another lower-case form than the word.) *)
Theorem launch_app_ignores_ascii_case
    (unicode_lower : string -> string) :
  lower_on_ascii unicode_lower ->
  (∀ app_name apps,
     is_ascii app_name = true ->
     LGTVControl.next_match unicode_lower (upper app_name) apps
       = LGTVControl.next_match unicode_lower app_name apps ∧
     LGTVControl.next_match unicode_lower (lower app_name) apps
       = LGTVControl.next_match unicode_lower app_name apps) ∧
  (∀ app_name (app : LGTVControl.Application) title,
     is_ascii title = true ->
     LGTVControl.title_matches unicode_lower app_name
       (<["title" := upper title]> app)
       = LGTVControl.title_matches unicode_lower app_name
           (<["title" := title]> app) ∧
     LGTVControl.title_matches unicode_lower app_name
       (<["title" := lower title]> app)
       = LGTVControl.title_matches unicode_lower app_name
           (<["title" := title]> app)).
Proof.
  intros Hascii. split.
  - intros app_name apps Hname. split; apply next_match_ext.
    + by apply str_lower_upper.
    + by apply str_lower_lower.
  - intros app_name app title Htitle. unfold LGTVControl.title_matches.
    rewrite !lookup_insert_eq.
    by rewrite str_lower_upper, str_lower_lower.
Qed.

Lemma launch_app_ignores_ascii_case_witness :
  LGTVControl.next_match lower (upper "plex") [app_netflix; app_plex]
  = LGTVControl.next_match lower "plex" [app_netflix; app_plex].
Proof.
  refine (proj1 (proj1 (launch_app_ignores_ascii_case lower _)
                   "plex" [app_netflix; app_plex] _)).
  - intros s _. reflexivity.
  - reflexivity.
Defined.

(** X8. An empty name selects the first application: [''] is found in
    every title, so when the first application listed has a title and its
    launch succeeds, [launch_app] launches it. *)
Theorem launch_app_empty_name
    (unicode_lower : string -> string)
    (env : LGTVControl.AppEnv)
    (app : LGTVControl.Application) (apps : list LGTVControl.Application)
    (title : string) :
  LGTVControl.list_apps env = inr (app :: apps) ->
  app !! "title" = Some title ->
  LGTVControl.launch env app = inr () ->
  LGTVControl.launch_app unicode_lower env ""
  = ([LGTVControl.List_apps; LGTVControl.Launch app;
      LGTVControl.Printed " app launched successfully."], inr ()).
Proof.
  intros Hlist Htitle Hlaunch. unfold LGTVControl.launch_app.
  rewrite Hlist. unfold bind at 1. cbn [LGTVControl.next_match].
  unfold LGTVControl.title_matches. rewrite Htitle.
  cbn [LGTVControl.str_lower]. rewrite contains_empty.
  unfold bind at 1. unfold bind. rewrite Hlaunch. reflexivity.
Qed.

Lemma launch_app_empty_name_witness :
  LGTVControl.launch_app lower app_env_ok ""
  = ([LGTVControl.List_apps; LGTVControl.Launch app_netflix;
      LGTVControl.Printed " app launched successfully."], inr ()).
Proof.
  apply (launch_app_empty_name lower app_env_ok app_netflix [app_plex]
           "Netflix").
  - reflexivity.
  - vm_compute. reflexivity.
  - reflexivity.
Defined.

(** ** The scan: further properties *)

Section ScanMore.

Context (self : TVDiscoveryBase) (blacklist : list string).

Lemma parse_line_without_tab_none line :
  has_tab line = false -> parse_line line = None.
Proof. unfold has_tab, parse_line. by intros ->. Qed.

Lemma scan_line_without_tab devices line :
  has_tab line = false ->
  scan_line self blacklist devices line = ret devices.
Proof.
  intros H. unfold scan_line. by rewrite parse_line_without_tab_none.
Qed.

Lemma scan_lines_filter_tab lines : ∀ devices,
  scan_lines self blacklist devices lines
  = scan_lines self blacklist devices
      (filter (λ line, has_tab line = true) lines).
Proof.
  induction lines as [|line lines IH]; intros devices; [done|].
  rewrite filter_cons. case_decide as Ht.
  - simpl. destruct (scan_line self blacklist devices line) as [calls [e|ds]];
      simpl; [done|]. by rewrite IH.
  - apply not_true_is_false in Ht. simpl.
    rewrite scan_line_without_tab by done. by rewrite bind_ret_l.
Qed.

(** One loop iteration, when the hooks answer: the list grows by the
    accepted device of the line, if any. *)
Lemma scan_line_accepted devices line :
  (∀ d, _enrich_device_info self d = inr d) ->
  (∀ ip mac desc,
     parse_line line = Some (ip, mac, desc) ->
     is_blacklisted blacklist mac = false ->
     mac_prefix_of mac ∉ dom (get_mac_prefixes self) ->
     ∃ answer, _is_tv_device self desc = inr answer) ->
  (scan_line self blacklist devices line).2
  = inr (devices ++ option_list (accepted_device self blacklist line)).
Proof.
  intros Henrich Hanswers. unfold scan_line, accepted_device.
  destruct (parse_line line) as [[[ip mac] desc]|] eqn:Hp;
    [|by rewrite app_nil_r].
  unfold scan_triple.
  destruct (is_blacklisted blacklist mac) eqn:Hb; [by rewrite app_nil_r|].
  case_bool_decide as Hin.
  - rewrite bind_ret_l. unfold call_enrich_device_info, bind, ret.
    by rewrite Henrich.
  - destruct (Hanswers ip mac desc eq_refl Hb Hin) as [answer Ha].
    unfold call_is_tv_device, call_enrich_device_info, bind, ret.
    rewrite Ha. destruct answer; simpl; [|by rewrite app_nil_r].
    by rewrite Henrich.
Qed.

Lemma scan_lines_accepted lines : ∀ devices,
  (∀ d, _enrich_device_info self d = inr d) ->
  heuristic_answers self blacklist lines ->
  (scan_lines self blacklist devices lines).2
  = inr (devices ++ omap (accepted_device self blacklist) lines).
Proof.
  induction lines as [|line lines IH]; intros devices Henrich Hans.
  - simpl. by rewrite app_nil_r.
  - cbn [scan_lines]. rewrite bind_snd.
    rewrite (scan_line_accepted devices line Henrich).
    2:{ intros ip mac desc. apply Hans. apply elem_of_cons; auto. }
    rewrite IH; [|done|].
    2:{ intros l ip mac desc Hin. apply Hans. apply elem_of_cons; auto. }
    cbn [omap list_omap].
    destruct (accepted_device self blacklist line) as [d|]; simpl.
    + by rewrite <- app_assoc.
    + by rewrite app_nil_r.
Qed.

End ScanMore.

(** X9. Lines without a tab do not count.  A scan gives the same hook
    calls and the same result as the scan of the lines that hold a tab; in
    particular an output in which no line holds a tab (an empty output, or
    banner lines only) gives the empty list without any hook call. *)
Theorem scan_network_ignores_lines_without_tab
    (self : TVDiscoveryBase) (blacklist : list string) (stdout : string) :
  scan_network self (scan_env blacklist stdout)
  = try_except
      (scan_lines self blacklist []
         (filter (λ line, has_tab line = true) (splitlines stdout)))
      (λ _, ret []) ∧
  ((∀ line, line ∈ splitlines stdout -> has_tab line = false) ->
   scan_network self (scan_env blacklist stdout) = ([], inr [])).
Proof.
  assert (scan_network self (scan_env blacklist stdout)
          = try_except
              (scan_lines self blacklist []
                 (filter (λ line, has_tab line = true) (splitlines stdout)))
              (λ _, ret [])) as Heq.
  { rewrite scan_network_scan_env. by rewrite <- scan_lines_filter_tab. }
  split; [done|]. intros Hall. rewrite Heq.
  replace (filter (λ line, has_tab line = true) (splitlines stdout))
    with (@nil string); [done|].
  symmetry. revert Hall. generalize (splitlines stdout) as lines.
  induction lines as [|line lines IH]; intros Hall; [done|].
  rewrite filter_cons. case_decide as Ht.
  - rewrite (Hall line) in Ht by (apply elem_of_cons; auto). done.
  - apply IH. intros l Hl. apply Hall. apply elem_of_cons; auto.
Qed.

Lemma scan_network_ignores_lines_without_tab_witness :
  scan_network WebOS.WebOSDiscovery
    (scan_env [] "Interface: eth0, type: EN10MB, IPv4: 192.168.1.2")
  = ([], inr []).
Proof.
  refine (proj2 (scan_network_ignores_lines_without_tab WebOS.WebOSDiscovery
                   [] "Interface: eth0, type: EN10MB, IPv4: 192.168.1.2") _).
  intros line Hin. apply list_elem_of_singleton in Hin. rewrite Hin.
  reflexivity.
Defined.

(** X10. What a scan returns, when its hooks answer.  For a vendor class
    whose enrichment hook returns the dictionary unchanged (the hook of the
    base class) and whose heuristic raises on no line that reaches it, the
    scan returns, in output order and one per line, exactly the devices of
    the lines that parse, are not blacklisted and are accepted by the table
    or by the heuristic; a line printed twice is returned twice. *)
Theorem scan_network_returns_accepted_lines
    (self : TVDiscoveryBase) (blacklist : list string) (stdout : string) :
  (∀ d, _enrich_device_info self d = inr d) ->
  heuristic_answers self blacklist (splitlines stdout) ->
  (scan_network self (scan_env blacklist stdout)).2
  = inr (omap (accepted_device self blacklist) (splitlines stdout)).
Proof.
  intros Henrich Hans. rewrite scan_network_scan_env, try_except_snd.
  by rewrite (scan_lines_accepted self blacklist _ [] Henrich Hans).
Qed.

Lemma scan_network_returns_accepted_lines_witness :
  (scan_network WebOS.WebOSDiscovery
     (scan_env [] (lg_stdout +:+ String LF lg_stdout))).2
  = inr (omap (accepted_device WebOS.WebOSDiscovery [])
           (splitlines (lg_stdout +:+ String LF lg_stdout))).
Proof.
  apply (scan_network_returns_accepted_lines WebOS.WebOSDiscovery []
           (lg_stdout +:+ String LF lg_stdout)).
  - intros d. reflexivity.
  - intros line ip mac desc Hin Hp Hb Hpre. exfalso. apply Hpre. clear Hpre Hb.
    change (splitlines (lg_stdout +:+ String LF lg_stdout))
      with [lg_stdout; lg_stdout] in Hin.
    apply elem_of_cons in Hin as [Hin|Hin];
      [|apply list_elem_of_singleton in Hin];
      rewrite Hin in Hp; vm_compute in Hp; injection Hp as _ <- _;
      apply elem_of_dom; exists "LG WebOS TV"; vm_compute; reflexivity.
Defined.

Section ScanCase.

Lemma map_lower_upper (l : list string) : map lower (map upper l) = map lower l.
Proof.
  induction l as [|s l IH]; simpl; [done|]. by rewrite lower_upper, IH.
Qed.

Lemma map_lower_lower (l : list string) : map lower (map lower l) = map lower l.
Proof.
  induction l as [|s l IH]; simpl; [done|]. by rewrite lower_lower, IH.
Qed.

Lemma upper_upper s : upper (upper s) = upper s.
Proof.
  unfold upper. rewrite map_str_compose.
  apply map_str_ext. intros c. by_ascii_cases c.
Qed.

Lemma slice_to_length_app (s t : string) :
  slice_to (String.length s) (s +:+ t) = s.
Proof.
  induction s as [|c s IH]; [by destruct t|].
  rewrite append_cons. simpl. by rewrite IH.
Qed.

End ScanCase.

(** X11. The blacklist ignores letter case on both sides: a MAC is
    blacklisted exactly when its upper-case or lower-case form is, and
    writing the entries of the blacklist in upper or lower case changes
    nothing. *)
Theorem is_blacklisted_ignores_case (blacklist : list string) (mac : string) :
  is_blacklisted blacklist (upper mac) = is_blacklisted blacklist mac ∧
  is_blacklisted blacklist (lower mac) = is_blacklisted blacklist mac ∧
  is_blacklisted (map upper blacklist) mac = is_blacklisted blacklist mac ∧
  is_blacklisted (map lower blacklist) mac = is_blacklisted blacklist mac.
Proof.
  unfold is_blacklisted.
  by rewrite lower_upper, lower_lower, map_lower_upper, map_lower_lower.
Qed.

(** X12. The table lookup ignores the letter case of the MAC: the prefix
    looked up is the same for a MAC, its upper-case and its lower-case form,
    it is already in upper case, and so the device type of the built
    dictionary is the same. *)
Theorem mac_prefix_ignores_case (mac : string) :
  mac_prefix_of (upper mac) = mac_prefix_of mac ∧
  mac_prefix_of (lower mac) = mac_prefix_of mac ∧
  upper (mac_prefix_of mac) = mac_prefix_of mac ∧
  ∀ self ip desc,
    dev_device_type (make_device self ip (lower mac) desc)
      = dev_device_type (make_device self ip mac desc) ∧
    dev_device_type (make_device self ip (upper mac) desc)
      = dev_device_type (make_device self ip mac desc).
Proof.
  assert (mac_prefix_of (upper mac) = mac_prefix_of mac) as Hu
    by (unfold mac_prefix_of; by rewrite upper_upper).
  assert (mac_prefix_of (lower mac) = mac_prefix_of mac) as Hl
    by (unfold mac_prefix_of; by rewrite upper_lower).
  split; [done|]. split; [done|]. split.
  - unfold mac_prefix_of. generalize (upper_upper mac).
    generalize (upper mac) as s. intros s. unfold upper.
    generalize 8%nat as n. intros n. revert n.
    induction s as [|c s IH]; intros n Hs; destruct n; simpl; try done.
    simpl in Hs. injection Hs as Hc Hs. by rewrite Hc, IH.
  - intros self ip desc. simpl. by rewrite Hu, Hl.
Qed.

(** X13. Every entry of the WebOS table can be hit.  For every pair of
    the dictionary literal: the key has eight characters and is in upper
    case, a MAC that starts with the key, in upper or in lower case, is
    looked up under that key, the lookup gives the value of the pair (no key
    occurs twice), and the device built for such a MAC has that value as
    device type. *)
Theorem webos_table_entries_reachable (key value rest : string) :
  (key, value) ∈ WebOS.mac_prefix_items ->
  String.length key = 8%nat ∧
  upper key = key ∧
  mac_prefix_of (key +:+ rest) = key ∧
  mac_prefix_of (lower key +:+ rest) = key ∧
  WebOS.get_mac_prefixes !! key = Some value ∧
  (∀ ip desc,
     dev_device_type (make_device WebOS.WebOSDiscovery ip (key +:+ rest) desc)
     = value) ∧
  NoDup (WebOS.mac_prefix_items.*1).
Proof.
  intros Hin.
  assert (Forall (λ kv, String.length kv.1 = 8%nat ∧ upper kv.1 = kv.1
                        ∧ WebOS.get_mac_prefixes !! kv.1 = Some kv.2)
            WebOS.mac_prefix_items) as Hall.
  { unfold WebOS.mac_prefix_items.
    repeat (apply Forall_cons; split;
            [split; [reflexivity|split; [reflexivity|by vm_compute]]|]).
    apply Forall_nil_2. }
  rewrite Forall_forall in Hall.
  destruct (Hall _ Hin) as (Hlen & Hup & Hlook). simpl in Hlen, Hup, Hlook.
  assert (mac_prefix_of (key +:+ rest) = key) as Hpre.
  { unfold mac_prefix_of, upper. rewrite map_str_app. fold (upper key).
    rewrite Hup. rewrite <- Hlen at 1. apply slice_to_length_app. }
  split; [done|]. split; [done|]. split; [done|]. split; [|split; [done|split]].
  - unfold mac_prefix_of, upper. rewrite map_str_app.
    fold (upper (lower key)). rewrite upper_lower, Hup.
    rewrite <- Hlen at 1. apply slice_to_length_app.
  - intros ip desc. simpl. rewrite Hpre. unfold dict_get.
    change (TVDiscovery.get_mac_prefixes WebOS.WebOSDiscovery)
      with WebOS.get_mac_prefixes.
    by rewrite Hlook.
  - apply (bool_decide_unpack _). by vm_compute.
Qed.

Lemma webos_table_entries_reachable_witness :
  mac_prefix_of ("7C:AB:25" +:+ ":11:22:33") = "7C:AB:25" ∧
  WebOS.get_mac_prefixes !! "7C:AB:25" = Some "LG WebOS TV".
Proof.
  pose proof (webos_table_entries_reachable "7C:AB:25" "LG WebOS TV"
                ":11:22:33") as H.
  assert (("7C:AB:25", "LG WebOS TV") ∈ WebOS.mac_prefix_items) as Hin.
  { apply (bool_decide_unpack _). vm_compute. exact I. }
  destruct (H Hin) as (_ & _ & H3 & _ & H5 & _). exact (conj H3 H5).
Defined.

(** X14. WebOS devices outside the table.  For a triple that is not
    blacklisted, whose prefix is not a key of the table and that has a
    description, the WebOS scan asks the heuristic once; it accepts the
    device exactly when the description holds "LG Electronics" or "WebOS",
    in this letter case, and then builds it with the description as printed
    and the device type "Unknown LG WebOS Model"; otherwise the list is left
    as it was. *)
Theorem webos_scan_unlisted_prefix
    (blacklist : list string) (devices : list Device)
    (ip mac description : string) :
  is_blacklisted blacklist mac = false ->
  mac_prefix_of mac ∉ dom WebOS.get_mac_prefixes ->
  scan_triple WebOS.WebOSDiscovery blacklist devices ip mac (Some description)
  = if contains "LG Electronics" description || contains "WebOS" description
    then ([Call_is_tv_device (Some description);
           Call_enrich_device_info (webos_unlisted_device ip mac description)],
          inr (devices ++ [webos_unlisted_device ip mac description]))
    else ([Call_is_tv_device (Some description)], inr devices).
Proof.
  intros Hb Hpre. unfold scan_triple. rewrite Hb.
  change (TVDiscovery.get_mac_prefixes WebOS.WebOSDiscovery)
    with WebOS.get_mac_prefixes.
  rewrite bool_decide_eq_false_2 by done.
  unfold call_is_tv_device, bind. cbn [_is_tv_device WebOS.WebOSDiscovery].
  cbn [WebOS._is_tv_device].
  destruct (contains "LG Electronics" description
            || contains "WebOS" description) eqn:Hc; [|done].
  assert (description ≠ "") as Hne.
  { intros ->. vm_compute in Hc. discriminate. }
  replace (make_device WebOS.WebOSDiscovery ip mac (Some description))
    with (webos_unlisted_device ip mac description); [done|].
  unfold make_device, webos_unlisted_device. f_equal.
  - simpl. by apply String.eqb_neq in Hne as ->.
  - unfold dict_get.
    change (TVDiscovery.get_mac_prefixes WebOS.WebOSDiscovery)
      with WebOS.get_mac_prefixes.
    apply not_elem_of_dom in Hpre. by rewrite Hpre.
Qed.

Lemma webos_scan_unlisted_prefix_witness :
  scan_triple WebOS.WebOSDiscovery [] [] "192.168.1.7" "AA:BB:CC:11:22:33"
    (Some "LG Electronics Inc.")
  = ([Call_is_tv_device (Some "LG Electronics Inc.");
      Call_enrich_device_info
        (webos_unlisted_device "192.168.1.7" "AA:BB:CC:11:22:33"
           "LG Electronics Inc.")],
     inr [webos_unlisted_device "192.168.1.7" "AA:BB:CC:11:22:33"
            "LG Electronics Inc."]).
Proof.
  apply (webos_scan_unlisted_prefix [] [] "192.168.1.7" "AA:BB:CC:11:22:33"
           "LG Electronics Inc.").
  - reflexivity.
  - apply (bool_decide_unpack _). vm_compute. exact I.
Defined.

(** ** The reachability probe: further properties *)

Section ProbeMore.

Context (env : WebOS.ProbeEnv) (ip : string).

Lemma nc_loop_closed_prefix pre rest :
  (∀ p, p ∈ pre -> nc_closed env ip p) ->
  WebOS.nc_loop env ip (pre ++ rest)
  = ((WebOS.Sys_nc ip <$> pre) ++ (WebOS.nc_loop env ip rest).1,
     (WebOS.nc_loop env ip rest).2).
Proof.
  intros Hpre. induction pre as [|p pre IH]; simpl.
  - by destruct (WebOS.nc_loop env ip rest).
  - destruct (Hpre p) as (rc & Hrc & Hne); [apply elem_of_cons; auto|].
    rewrite Hrc. apply Z.eqb_neq in Hne. unfold bind. rewrite Hne.
    rewrite IH; [done|].
    intros q Hq. apply Hpre. apply elem_of_cons; auto.
Qed.

Lemma nc_loop_length ps :
  (length (WebOS.nc_loop env ip ps).1 ≤ length ps)%nat.
Proof.
  induction ps as [|p ps IH]; simpl; [done|].
  destruct (WebOS.nc env ip p) as [e|rc]; simpl; [lia|].
  destruct (Z.eqb rc 0); simpl; [lia|].
  destruct (WebOS.nc_loop env ip ps); simpl in *. lia.
Qed.

Lemma socket_loop_length globals ps :
  (length (WebOS.socket_loop globals env ip ps).1 ≤ length ps)%nat.
Proof.
  induction ps as [|p ps IH]; simpl; [done|].
  unfold WebOS.socket_attempt, WebOS.load_global.
  case_bool_decide; simpl.
  - destruct (WebOS.connect_ex env ip p) as [e|rc]; simpl.
    + destruct (WebOS.socket_loop globals env ip ps); simpl in *. lia.
    + destruct (Z.eqb rc 0); simpl; [lia|].
      destruct (WebOS.socket_loop globals env ip ps); simpl in *. lia.
  - destruct (WebOS.socket_loop globals env ip ps); simpl in *. lia.
Qed.

End ProbeMore.

Lemma bind_calls {E A B} (m : Traced E A) (k : A -> Traced E B) :
  (bind m k).1 = m.1 ++ match m.2 with inl _ => [] | inr a => (k a).1 end.
Proof.
  destruct m as [calls [e|a]]; simpl; [by rewrite app_nil_r|].
  by destruct (k a).
Qed.

Lemma try_except_calls {E A} (m : Traced E A) (h : exn -> Traced E A) :
  (try_except m h).1
  = m.1 ++ match m.2 with inl e => (h e).1 | inr _ => [] end.
Proof.
  destruct m as [calls [e|a]]; simpl; [|by rewrite app_nil_r].
  by destruct (h e).
Qed.

(** X15. The first port that [nc] finds open ends the probe.  When [nc]
    finds the ports before [port] closed and [port] open, [test_connection]
    returns [True] after these [nc] runs, in list order, and nothing else:
    no later port is tried, no socket is opened, no reverse lookup is
    made. *)
Theorem test_connection_stops_at_first_open_port
    (globals : list string) (env : WebOS.ProbeEnv) (ip : string)
    (pre post : list string) (port : string) :
  WebOS.ports = pre ++ port :: post ->
  (∀ p, p ∈ pre -> nc_closed env ip p) ->
  WebOS.nc env ip port = inr 0%Z ->
  WebOS.test_connection_in globals env ip
  = (WebOS.Sys_nc ip <$> (pre ++ [port]), inr true).
Proof.
  intros Hports Hpre Hopen.
  assert (WebOS._test_connection_nc env ip
          = (WebOS.Sys_nc ip <$> (pre ++ [port]), inr true)) as Hnc.
  { unfold WebOS._test_connection_nc. rewrite Hports.
    rewrite (nc_loop_closed_prefix env ip pre _ Hpre).
    cbn [WebOS.nc_loop]. rewrite Hopen. simpl.
    by rewrite fmap_app. }
  unfold WebOS.test_connection_in. rewrite Hnc. simpl.
  by rewrite !app_nil_r.
Qed.

Lemma test_connection_stops_at_first_open_port_witness :
  WebOS.test_connection env_nc_second_port_open "192.168.1.5"
  = (WebOS.Sys_nc "192.168.1.5" <$> (["3000"] ++ ["3001"]), inr true).
Proof.
  apply (test_connection_stops_at_first_open_port WebOS.module_globals
           env_nc_second_port_open "192.168.1.5"
           ["3000"] ["8080"; "8001"; "8002"] "3001").
  - reflexivity.
  - intros p Hin. apply list_elem_of_singleton in Hin. rewrite Hin.
    exists 1%Z. split; [reflexivity|lia].
  - reflexivity.
Defined.

(** X16. A failure to run [nc] ends the [nc] method.  The [try] of
    [_test_connection_nc] holds the whole loop: when [nc] finds the ports
    before [port] closed and raises for [port], the method returns [False]
    after these runs, and the later ports are not given to [nc], whatever
    it would find there. *)
Theorem test_connection_nc_stops_at_exception
    (env : WebOS.ProbeEnv) (ip : string)
    (pre post : list string) (port : string) (e : exn) :
  WebOS.ports = pre ++ port :: post ->
  (∀ p, p ∈ pre -> nc_closed env ip p) ->
  WebOS.nc env ip port = inl e ->
  WebOS._test_connection_nc env ip
  = (WebOS.Sys_nc ip <$> (pre ++ [port]), inr false).
Proof.
  intros Hports Hpre Hraise.
  unfold WebOS._test_connection_nc. rewrite Hports.
  rewrite (nc_loop_closed_prefix env ip pre _ Hpre).
  cbn [WebOS.nc_loop]. rewrite Hraise. simpl.
  by rewrite fmap_app, app_nil_r.
Qed.

Lemma test_connection_nc_stops_at_exception_witness :
  WebOS._test_connection_nc env_nc_breaks_on_second_port "192.168.1.5"
  = (WebOS.Sys_nc "192.168.1.5" <$> (["3000"] ++ ["3001"]), inr false).
Proof.
  apply (test_connection_nc_stops_at_exception
           env_nc_breaks_on_second_port "192.168.1.5"
           ["3000"] ["8080"; "8001"; "8002"] "3001"
           (OtherException "OSError")).
  - reflexivity.
  - intros p Hin. apply list_elem_of_singleton in Hin. rewrite Hin.
    exists 1%Z. split; [reflexivity|lia].
  - reflexivity.
Defined.

(** X17. In the module as written, where [socket] is not bound,
    [test_connection] is [_test_connection_nc]: the same verdict after the
    same [nc] runs, for every network and address; it opens no socket and
    makes no reverse lookup. *)
Theorem test_connection_is_nc_only (env : WebOS.ProbeEnv) (ip : string) :
  WebOS.test_connection env ip = WebOS._test_connection_nc env ip ∧
  ∀ call, call ∈ (WebOS.test_connection env ip).1 ->
          ∃ port, port ∈ WebOS.ports ∧ call = WebOS.Sys_nc ip port.
Proof.
  assert (WebOS.test_connection env ip = WebOS._test_connection_nc env ip)
    as Heq.
  { unfold WebOS.test_connection, WebOS.test_connection_in.
    destruct (test_connection_nc_total env ip) as [b Hb].
    destruct (WebOS._test_connection_nc env ip) as [calls r] eqn:Hnc.
    simpl in Hb. subst r.
    destruct b; simpl; by rewrite !app_nil_r. }
  split; [done|]. rewrite Heq. unfold WebOS._test_connection_nc.
  assert (∀ ps call, call ∈ (WebOS.nc_loop env ip ps).1 ->
            ∃ port, port ∈ ps ∧ call = WebOS.Sys_nc ip port) as Hloop.
  { induction ps as [|p ps IH]; simpl; [by intros c ?%elem_of_nil|].
    intros c.
    destruct (WebOS.nc env ip p) as [e|rc]; simpl.
    - intros ->%list_elem_of_singleton. exists p.
      split; [apply elem_of_cons; auto|done].
    - destruct (Z.eqb rc 0); simpl.
      + intros ->%list_elem_of_singleton. exists p.
        split; [apply elem_of_cons; auto|done].
      + destruct (WebOS.nc_loop env ip ps) as [calls r]. simpl in *.
        intros [->|Hin]%elem_of_cons.
        * exists p. split; [apply elem_of_cons; auto|done].
        * destruct (IH c Hin) as (q & Hq & ->). exists q.
          split; [apply elem_of_cons; auto|done]. }
  intros call Hin. apply (Hloop WebOS.ports).
  destruct (WebOS.nc_loop env ip WebOS.ports) as [calls [e|b]]; simpl in *;
    [by rewrite app_nil_r in Hin|done].
Qed.

(** X18. A probe is bounded.  Whatever names the module binds and
    whatever the network does, [test_connection] makes at most eleven calls
    to the outside: at most five runs of [nc], five connections and one
    reverse lookup. *)
Theorem test_connection_bounded
    (globals : list string) (env : WebOS.ProbeEnv) (ip : string) :
  (length (WebOS.test_connection_in globals env ip).1 ≤ 11)%nat ∧
  (length (WebOS._test_connection_nc env ip).1 ≤ 5)%nat.
Proof.
  assert (length (WebOS._test_connection_nc env ip).1 ≤ 5)%nat as Hnc.
  { unfold WebOS._test_connection_nc.
    pose proof (nc_loop_length env ip WebOS.ports) as H.
    destruct (WebOS.nc_loop env ip WebOS.ports) as [calls [e|b]];
      simpl in *; rewrite ?length_app; simpl; lia. }
  split; [|done].
  unfold WebOS.test_connection_in.
  rewrite try_except_calls, bind_calls, bind_snd.
  destruct (test_connection_nc_total env ip) as [b Hb]. rewrite Hb.
  destruct b; cbn [fst snd ret]; rewrite ?length_app; cbn [length]; [lia|].
  rewrite bind_calls, !bind_snd, socket_loop_snd.
  pose proof (socket_loop_length env ip globals WebOS.webos_ports) as Hs.
  change (length WebOS.webos_ports) with 5%nat in Hs.
  destruct (existsb _ WebOS.webos_ports);
    cbn [fst snd ret]; rewrite ?length_app; cbn [length]; [lia|].
  assert (length (try_except
                    (do _ <- WebOS.resolve_attempt globals env ip; ret true)
                    (WebOS.except_herror globals)).1 ≤ 1)%nat as Hr.
  { unfold WebOS.resolve_attempt, WebOS.except_herror, WebOS.load_global.
    case_bool_decide; simpl.
    - destruct (WebOS.gethostbyaddr env ip) as [e|[]]; simpl; [|lia].
      destruct e; simpl; lia.
    - lia. }
  destruct (try_except _ (WebOS.except_herror globals)) as [calls3 [e|v]];
    simpl in *; lia.
Qed.

(** ** The factory: further properties *)

(** X19. A registered instance is what [get_discovery] returns.  After
    [register(tv_type, obj)], whatever the key (a built-in family, an
    unknown key) and whatever was registered before, the next request for
    the key returns [obj]; it imports nothing, constructs nothing and
    leaves the registry as [register] left it. *)
Theorem get_discovery_after_register
    (tizen_registers android_registers : bool)
    (tv_type : string) (obj : Factory.Instance) (st : Factory.Interp) :
  Factory.get_discovery tizen_registers android_registers tv_type
    (Factory.register tv_type obj st)
  = (Some obj, Factory.register tv_type obj st) ∧
  Factory.constructed (Factory.register tv_type obj st)
  = Factory.constructed st ∧
  Factory.imported (Factory.register tv_type obj st) = Factory.imported st.
Proof.
  split; [|done]. apply get_discovery_hit. simpl. apply lookup_insert_eq.
Qed.

Section FactoryMore.

Import Factory.

Context (tizen_registers android_registers : bool).

Lemma lazy_register_lookup_ne c st tv_type :
  tv_type ≠ tv_type_of c ->
  _discoveries (lazy_register tizen_registers android_registers c st) !! tv_type
  = _discoveries st !! tv_type.
Proof.
  intros Hne. unfold lazy_register, import_module.
  case_bool_decide; simpl.
  - by rewrite lookup_insert_ne.
  - destruct (registers_on_import _ _ c); simpl;
      by rewrite !lookup_insert_ne.
Qed.

(** The three outcomes of a request. *)
Lemma get_discovery_cases tv_type st :
  (get_discovery tizen_registers android_registers tv_type st).2 = st
  ∨ ∃ c, tv_type = tv_type_of c ∧
         _discoveries st !! tv_type = None ∧
         (get_discovery tizen_registers android_registers tv_type st).2
         = lazy_register tizen_registers android_registers c st.
Proof.
  destruct (_discoveries st !! tv_type) as [obj|] eqn:Hl.
  { left. by rewrite (get_discovery_hit _ _ _ _ _ Hl). }
  destruct (tv_type_cases tv_type) as [[c ->]|Hne].
  - right. exists c. split; [done|]. split; [done|].
    by rewrite (get_discovery_builtin_miss _ _ _ _ Hl).
  - left. by rewrite (get_discovery_unknown _ _ _ _ Hne Hl).
Qed.

Lemma count_class_app c l1 l2 :
  count_class c (l1 ++ l2) = (count_class c l1 + count_class c l2)%nat.
Proof. unfold count_class. by rewrite filter_app, length_app. Qed.

Lemma count_class_on_import c c' st :
  (count_class c' (constructed_on_import tizen_registers android_registers c st)
   ≤ if decide (c' = c) then 1 else 0)%nat.
Proof.
  unfold constructed_on_import, count_class.
  case_bool_decide; simpl; [case_decide; lia|].
  destruct (registers_on_import _ _ c); simpl; [|case_decide; lia].
  rewrite filter_cons. simpl.
  case_decide as H1; case_decide as H2; simpl; try lia. by subst.
Qed.

Lemma count_class_by_factory c c' st :
  count_class c'
    [constructed_by_factory tizen_registers android_registers c st]
  = if decide (c' = c) then 1%nat else 0%nat.
Proof.
  unfold count_class. rewrite filter_cons. simpl.
  case_decide as H1; case_decide as H2; simpl; try done; by subst.
Qed.

Lemma tv_type_of_inj c c' : tv_type_of c = tv_type_of c' -> c = c'.
Proof. by destruct c, c'. Qed.

End FactoryMore.

(** X20. A request never disturbs what is registered.  Every entry of
    the registry before [get_discovery] is the same entry after it, whatever
    the requested key; the instances constructed before are still the first
    ones constructed, and no module is forgotten. *)
Theorem get_discovery_keeps_entries
    (tizen_registers android_registers : bool)
    (tv_type : string) (st : Factory.Interp) :
  let st' :=
    (Factory.get_discovery tizen_registers android_registers tv_type st).2 in
  (∀ key obj, Factory._discoveries st !! key = Some obj ->
     Factory._discoveries st' !! key = Some obj) ∧
  (∃ added, Factory.constructed st' = Factory.constructed st ++ added) ∧
  (∀ c, c ∈ Factory.imported st -> c ∈ Factory.imported st').
Proof.
  intros st'. unfold st'.
  destruct (get_discovery_cases tizen_registers android_registers tv_type st)
    as [->|(c & -> & Hnone & ->)].
  { split; [done|]. split; [|done]. exists []. by rewrite app_nil_r. }
  split; [|split].
  - intros key obj Hl. rewrite lazy_register_lookup_ne; [done|].
    intros ->. by rewrite Hnone in Hl.
  - eexists. apply lazy_register_constructed.
  - intros c' Hin. unfold Factory.lazy_register, Factory.import_module.
    case_bool_decide; simpl; [done|].
    destruct (Factory.registers_on_import _ _ c); simpl;
      apply elem_of_cons; auto.
Qed.

Lemma get_discovery_keeps_entries_witness :
  Factory._discoveries
    (Factory.get_discovery false false "webos"
       (Factory.register "custom" injected Factory.fresh)).2 !! "custom"
  = Some injected.
Proof.
  refine (proj1 (get_discovery_keeps_entries false false "webos"
                   (Factory.register "custom" injected Factory.fresh))
            "custom" injected _).
  vm_compute. reflexivity.
Defined.

Section FactoryRuns.

Import Factory.

Context (tizen_registers android_registers : bool).

Lemma factory_inv_fresh : factory_inv fresh.
Proof.
  split; [|split; [|split]]; try done.
  - intros c. unfold count_class. simpl. lia.
Qed.

Lemma factory_inv_get tv_type st :
  factory_inv st ->
  factory_inv
    (get_discovery tizen_registers android_registers tv_type st).2.
Proof.
  intros (Hcount & Hzero & Hreg & Hids).
  destruct (get_discovery_cases tizen_registers android_registers tv_type st)
    as [->|(c & -> & Hnone & ->)]; [done|].
  pose proof (lazy_register_constructed tizen_registers android_registers c st)
    as Hcons.
  split; [|split; [|split]].
  - intros c'. rewrite Hcons, !count_class_app, count_class_by_factory.
    pose proof (count_class_on_import tizen_registers android_registers
                  c c' st) as Hi.
    case_decide as Hc.
    + subst c'. rewrite (Hzero c Hnone). lia.
    + specialize (Hcount c'). lia.
  - intros c' Hl. rewrite Hcons, !count_class_app, count_class_by_factory.
    pose proof (count_class_on_import tizen_registers android_registers
                  c c' st) as Hi.
    case_decide as Hc.
    + subst c'. by rewrite lazy_register_lookup in Hl.
    + rewrite lazy_register_lookup_ne in Hl
        by (intros Heq; by apply tv_type_of_inj in Heq).
      rewrite (Hzero c' Hl). lia.
  - intros key obj Hl.
    destruct (decide (key = tv_type_of c)) as [->|Hne].
    + rewrite lazy_register_lookup in Hl. injection Hl as <-.
      exists c. split; [done|]. split; [done|].
      rewrite Hcons. rewrite !elem_of_app. right. right.
      by apply list_elem_of_singleton.
    + rewrite lazy_register_lookup_ne in Hl by done.
      destruct (Hreg key obj Hl) as (c' & -> & Hcl & Hin).
      exists c'. split; [done|]. split; [done|].
      rewrite Hcons. apply elem_of_app. by left.
  - assert (∀ n, seq 0 n ++ [n] = seq 0 (n + 1)) as H1.
    { intros n. by rewrite Nat.add_1_r, seq_S. }
    assert (∀ n, seq 0 n ++ [n; (n + 1)%nat] = seq 0 (n + 2)) as H2.
    { intros n. replace (n + 2)%nat with (S (S n)) by lia.
      rewrite !seq_S. simpl. rewrite <- app_assoc. simpl.
      by rewrite Nat.add_1_r. }
    rewrite Hcons, !fmap_app, Hids, !length_app.
    unfold constructed_by_factory, constructed_on_import.
    case_bool_decide; simpl.
    + rewrite app_nil_r. apply H1.
    + destruct (registers_on_import _ _ c); simpl.
      * rewrite length_app. simpl. apply H2.
      * rewrite app_nil_r. apply H1.
Qed.

Lemma factory_inv_requests tv_types : ∀ st,
  factory_inv st ->
  factory_inv (requests tizen_registers android_registers tv_types st).
Proof.
  induction tv_types as [|k ks IH]; intros st Hinv; [done|].
  simpl. by apply IH, factory_inv_get.
Qed.

Lemma length_by_class (objs : list Instance) :
  length objs
  = (count_class WebOSDiscovery objs + count_class TizenDiscovery objs
     + count_class AndroidDiscovery objs)%nat.
Proof.
  unfold count_class. induction objs as [|[id c] objs IH]; [done|].
  rewrite !filter_cons. simpl. destruct c; repeat case_decide; simpl;
    try done; lia.
Qed.

End FactoryRuns.

Section FactoryKeeps.

Import Factory.

Context (tizen_registers android_registers : bool).

Lemma get_discovery_keeps tv_type st key obj :
  _discoveries st !! key = Some obj ->
  _discoveries
    (get_discovery tizen_registers android_registers tv_type st).2 !! key
  = Some obj.
Proof.
  intros Hl.
  destruct (get_discovery_cases tizen_registers android_registers tv_type st)
    as [->|(c & -> & Hnone & ->)]; [done|].
  rewrite lazy_register_lookup_ne; [done|].
  intros ->. by rewrite Hnone in Hl.
Qed.

Lemma requests_keeps tv_types : ∀ st key obj,
  _discoveries st !! key = Some obj ->
  _discoveries (requests tizen_registers android_registers tv_types st) !! key
  = Some obj.
Proof.
  induction tv_types as [|k ks IH]; intros st key obj Hl; [done|].
  simpl. by apply IH, get_discovery_keeps.
Qed.

Lemma get_discovery_registers c st :
  is_Some (_discoveries
             (get_discovery tizen_registers android_registers
                (tv_type_of c) st).2 !! tv_type_of c).
Proof.
  destruct (_discoveries st !! tv_type_of c) as [obj|] eqn:Hl.
  - rewrite (get_discovery_hit _ _ _ _ _ Hl). simpl. by rewrite Hl.
  - rewrite (get_discovery_builtin_miss _ _ _ _ Hl). cbn [snd].
    by rewrite lazy_register_lookup.
Qed.

Lemma requests_registers tv_types : ∀ st c,
  tv_type_of c ∈ tv_types ->
  is_Some (_discoveries
             (requests tizen_registers android_registers tv_types st)
           !! tv_type_of c).
Proof.
  induction tv_types as [|k ks IH]; intros st c Hin.
  - by apply elem_of_nil in Hin.
  - simpl. apply elem_of_cons in Hin as [<-|Hin]; [|by apply IH].
    destruct (get_discovery_registers c st) as [obj Hobj].
    exists obj. by apply requests_keeps.
Qed.

End FactoryKeeps.

(** X21. The factory over a whole run.  From a fresh interpreter and
    after any sequence of requests, whether or not the Tizen and Android
    modules register on import: at most two instances of each class, hence
    at most six in all, have been constructed; they have pairwise distinct
    identities; every entry of the registry holds, under the key of a
    built-in family, an instance of that family that was constructed in this
    run; every built-in key that was requested is registered; and no other
    key is. *)
Theorem requests_from_fresh
    (tizen_registers android_registers : bool) (tv_types : list string) :
  let st := requests tizen_registers android_registers tv_types Factory.fresh in
  (∀ c, (count_class c (Factory.constructed st) ≤ 2)%nat) ∧
  (length (Factory.constructed st) ≤ 6)%nat ∧
  NoDup (Factory.inst_id <$> Factory.constructed st) ∧
  (∀ key obj, Factory._discoveries st !! key = Some obj ->
     ∃ c, key = Factory.tv_type_of c ∧ Factory.inst_class obj = c
          ∧ obj ∈ Factory.constructed st) ∧
  (∀ c, Factory.tv_type_of c ∈ tv_types ->
     is_Some (Factory._discoveries st !! Factory.tv_type_of c)) ∧
  (∀ key, (∀ c, key ≠ Factory.tv_type_of c) ->
     Factory._discoveries st !! key = None).
Proof.
  intros st.
  destruct (factory_inv_requests tizen_registers android_registers tv_types
              Factory.fresh factory_inv_fresh)
    as (Hcount & _ & Hreg & Hids).
  fold st in Hcount, Hreg, Hids.
  split; [done|]. split; [|split; [|split; [done|split]]].
  - rewrite length_by_class.
    pose proof (Hcount Factory.WebOSDiscovery).
    pose proof (Hcount Factory.TizenDiscovery).
    pose proof (Hcount Factory.AndroidDiscovery). lia.
  - rewrite Hids. apply NoDup_seq.
  - intros c Hin. by apply requests_registers.
  - intros key Hne.
    destruct (Factory._discoveries st !! key) as [obj|] eqn:Hl; [|done].
    destruct (Hreg key obj Hl) as (c & -> & _). by destruct (Hne c).
Qed.

Lemma requests_from_fresh_witness :
  is_Some
    (Factory._discoveries
       (requests false true ["webos"; "roku"; "webos"; "android"]
          Factory.fresh) !! "webos").
Proof.
  refine (proj1 (proj2 (proj2 (proj2 (proj2
            (requests_from_fresh false true
               ["webos"; "roku"; "webos"; "android"])))))
            Factory.WebOSDiscovery _).
  apply elem_of_cons. left. reflexivity.
Defined.

(** ** [connect_to_tv] and [main] *)

Section ConnectFacts.

Import LGTVControl.

Lemma register_loop_snd a store sts :
  (register_loop a store sts).2
  = if bool_decide (REGISTERED ∈ sts)
    then match write_store a (registered_store a store) with
         | inr _ => inr true
         | inl e => inl e
         end
    else match register_end a with
         | Some e => inl e
         | None => inr false
         end.
Proof.
  induction sts as [|st sts IH].
  - cbn [register_loop]. rewrite bool_decide_eq_false_2 by apply not_elem_of_nil.
    by destruct (register_end a).
  - destruct st as [| |v]; cbn [register_loop].
    + rewrite bind_snd. cbn [print snd]. rewrite IH.
      apply (f_equal (λ b : bool, if b then _ else _)).
      apply bool_decide_ext. rewrite elem_of_cons.
      intuition discriminate.
    + rewrite bool_decide_eq_true_2 by (apply elem_of_cons; auto).
      rewrite !bind_snd. cbn [print save_store snd].
      by destruct (write_store a (registered_store a store)) as [e|[]].
    + rewrite IH.
      apply (f_equal (λ b : bool, if b then _ else _)).
      apply bool_decide_ext. rewrite elem_of_cons.
      intuition discriminate.
Qed.

Lemma connect_attempt_snd a store :
  (connect_attempt a store).2 = inr (registers a store).
Proof.
  unfold connect_attempt, registers.
  rewrite try_except_snd, bind_snd. cbn [snd].
  destruct (connect a) as [e|[]]; [done|].
  rewrite register_loop_snd.
  case_bool_decide; simpl.
  - by destruct (write_store a (registered_store a store)).
  - by destruct (register_end a).
Qed.

(** A pass that returns ends with the success line and the write of the
    store. *)
Lemma register_loop_returned a store sts tr :
  register_loop a store sts = (tr, inr true) ->
  ∃ before,
    tr = before ++ [Printed "Registration successful!";
                    Store_written (registered_store a store)] ∧
    write_store a (registered_store a store) = inr ().
Proof.
  revert tr. induction sts as [|st sts IH]; intros tr.
  - cbn [register_loop]. by destruct (register_end a).
  - destruct st as [| |v]; cbn [register_loop].
    + unfold print, bind.
      destruct (register_loop a store sts) as [tr' r] eqn:Hl.
      intros [= <- ->]. destruct (IH tr' eq_refl) as (before & -> & Hw).
      exists (Printed "Please accept the connection on the TV." :: before).
      by split.
    + unfold print, save_store, bind, ret.
      destruct (write_store a (registered_store a store)) as [e|[]];
        intros [= <-]. by exists [].
    + apply IH.
Qed.

Lemma connect_attempt_returned a store tr :
  connect_attempt a store = (tr, inr true) ->
  ∃ before,
    tr = before ++ [Printed "Registration successful!";
                    Store_written (registered_store a store)] ∧
    write_store a (registered_store a store) = inr ().
Proof.
  unfold connect_attempt.
  destruct (connect a) as [e|[]]; [by intros [=]|].
  unfold bind at 1.
  destruct (register_loop a store (statuses a)) as [tr' [e|b]] eqn:Hl;
    [by intros [=]|].
  simpl. intros [= <- ->].
  destruct (register_loop_returned _ _ _ _ Hl) as (before & -> & Hw).
  exists (Client_connect :: before). by split.
Qed.

Context (env : ConnectEnv) (client : Client).

Lemma connect_loop_snd n : ∀ fuel pass store,
  (∀ j, (j < n)%nat ->
     registers (attempts env (pass + j)) (store_at env store pass j) = false) ->
  registers (attempts env (pass + n)) (store_at env store pass n) = true ->
  (connect_loop env client store fuel pass).2
  = inr (if (n <? fuel)%nat then Some client else None).
Proof.
  induction n as [|n IH]; intros fuel pass store Hfail Hok.
  - destruct fuel as [|fuel]; [done|].
    cbn [connect_loop]. rewrite bind_snd, connect_attempt_snd.
    rewrite Nat.add_0_r in Hok. simpl in Hok. by rewrite Hok.
  - destruct fuel as [|fuel]; [done|].
    cbn [connect_loop]. rewrite bind_snd, connect_attempt_snd.
    pose proof (Hfail 0%nat ltac:(lia)) as H0.
    rewrite Nat.add_0_r in H0. simpl in H0. rewrite H0.
    rewrite (IH fuel (S pass)).
    + done.
    + intros j Hj. specialize (Hfail (S j) ltac:(lia)).
      by replace (pass + S j)%nat with (S pass + j)%nat in Hfail by lia.
    + by replace (pass + S n)%nat with (S pass + n)%nat in Hok by lia.
Qed.

Lemma connect_loop_returned fuel : ∀ pass store tr c,
  connect_loop env client store fuel pass = (tr, inr (Some c)) ->
  c = client ∧
  ∃ before written n,
    tr = before ++ [Printed "Registration successful!"; Store_written written]
    ∧ (n < fuel)%nat
    ∧ write_store (attempts env (pass + n)) written = inr ().
Proof.
  induction fuel as [|fuel IH]; intros pass store tr c; [by intros [=]|].
  cbn [connect_loop].
  destruct (connect_attempt (attempts env pass) store) as [tr1 [e|b]] eqn:Ha;
    [by intros [=]|].
  unfold bind. destruct b.
  - simpl. intros [= <- <-]. split; [done|].
    destruct (connect_attempt_returned _ _ _ Ha) as (before & -> & Hw).
    exists before, (registered_store (attempts env pass) store), 0%nat.
    rewrite app_nil_r, Nat.add_0_r.
    split; [done|]. split; [lia|done].
  - destruct (connect_loop env client _ fuel (S pass)) as [tr2 r2] eqn:Hl.
    intros [= <- ->].
    destruct (IH _ _ _ _ Hl) as (-> & before & written & n & -> & Hn & Hw).
    split; [done|].
    exists (tr1 ++ before), written, (S n). rewrite app_assoc.
    split; [done|]. split; [lia|].
    by replace (pass + S n)%nat with (S pass + n)%nat by lia.
Qed.

End ConnectFacts.

Section ConnectReturned.

Import LGTVControl.

Lemma connect_to_tv_returned env tv_ip fuel client :
  (connect_to_tv env tv_ip fuel).2 = inr (Some client) ->
  client = WebOSClient tv_ip ∧
  ∃ before written pass,
    (connect_to_tv env tv_ip fuel).1
    = before ++ [Printed "Registration successful!"; Store_written written] ∧
    (pass < fuel)%nat ∧
    write_store (attempts env pass) written = inr ().
Proof.
  unfold LGTVControl.connect_to_tv.
  destruct (LGTVControl.load_store env) as [tr0 [e|store]]; [by intros [=]|].
  unfold bind.
  destruct (LGTVControl.connect_loop env _ store fuel 0) as [tr r] eqn:Hl.
  simpl. intros ->.
  destruct (connect_loop_returned env _ fuel 0 store tr client Hl)
    as (-> & before & written & n & -> & Hn & Hw).
  split; [done|]. exists (tr0 ++ before), written, n.
  by rewrite app_assoc.
Qed.

Lemma Forall_bind_calls {A B} (P : Event -> Prop)
    (m : Run A) (k : A -> Run B) :
  Forall P m.1 -> (∀ a, Forall P (k a).1) -> Forall P (bind m k).1.
Proof.
  intros Hm Hk. rewrite bind_calls. apply Forall_app. split; [done|].
  destruct m.2; [constructor|apply Hk].
Qed.

Lemma Forall_try_calls {A} (P : Event -> Prop)
    (m : Run A) (h : exn -> Run A) :
  Forall P m.1 -> (∀ e, Forall P (h e).1) -> Forall P (try_except m h).1.
Proof.
  intros Hm Hh. rewrite try_except_calls. apply Forall_app. split; [done|].
  destruct m.2; [apply Hh|constructor].
Qed.

Ltac no_launch :=
  repeat first
    [ apply Forall_try_calls | apply Forall_bind_calls | intros ?
    | apply Forall_nil_2 | apply Forall_cons; split; [exact I|]
    | match goal with |- Forall _ (if ?b then _ else _).1 => destruct b end
    | match goal with |- Forall _ (match ?e with _ => _ end).1 =>
        destruct e end ].

Lemma send_wol_no_launch env mac : Forall not_launch (send_wol env mac).1.
Proof. unfold send_wol, send_wol_try, print, raise, ret. no_launch. Qed.

Lemma send_wol_total env mac : (send_wol env mac).2 = inr ().
Proof.
  unfold send_wol. rewrite try_except_snd.
  by destruct (send_wol_try env mac).2 as [e|[]].
Qed.

Lemma register_loop_no_launch a store sts :
  Forall not_launch (register_loop a store sts).1.
Proof.
  induction sts as [|[| |v] sts IH]; cbn [register_loop].
  - destruct (register_end a); constructor.
  - apply Forall_bind_calls; [|done]. by repeat constructor.
  - unfold print, save_store, ret. no_launch.
  - done.
Qed.

Lemma connect_loop_no_launch env client fuel : ∀ store pass,
  Forall not_launch (connect_loop env client store fuel pass).1.
Proof.
  induction fuel as [|fuel IH]; intros store pass; cbn [connect_loop].
  - constructor.
  - apply Forall_bind_calls.
    + unfold connect_attempt. apply Forall_try_calls.
      * apply Forall_bind_calls; [by repeat constructor|].
        intros _. apply register_loop_no_launch.
      * intros e. by repeat constructor.
    + intros [|]; [constructor|apply IH].
Qed.

Lemma connect_to_tv_no_launch env tv_ip fuel :
  Forall not_launch (connect_to_tv env tv_ip fuel).1.
Proof.
  unfold connect_to_tv. apply Forall_bind_calls.
  - unfold load_store. apply Forall_try_calls; [by repeat constructor|].
    intros e. destruct e; constructor.
  - intros store. apply connect_loop_no_launch.
Qed.

End ConnectReturned.

(** X22. [connect_to_tv] returns at the first pass that registers.  When
    the store is read (or its file is missing), the passes before pass [n]
    do not register and pass [n] does (it connects, comes to yield
    [REGISTERED], and the store is written), the loop run for more than [n]
    passes has returned the client of [TV_IP]; run for [n] passes or fewer
    it is still looping. *)
Theorem connect_to_tv_returns_at_first_registration
    (env : LGTVControl.ConnectEnv) (tv_ip : option string)
    (store : LGTVControl.Store) (n fuel : nat) :
  (LGTVControl.load_store env).2 = inr store ->
  (∀ j, (j < n)%nat ->
     registers (LGTVControl.attempts env j) (store_at env store 0 j) = false) ->
  registers (LGTVControl.attempts env n) (store_at env store 0 n) = true ->
  (LGTVControl.connect_to_tv env tv_ip fuel).2
  = inr (if (n <? fuel)%nat then Some (LGTVControl.WebOSClient tv_ip)
         else None).
Proof.
  intros Hload Hfail Hok. unfold LGTVControl.connect_to_tv.
  rewrite bind_snd, Hload.
  by apply (connect_loop_snd env _ n fuel 0 store).
Qed.

Lemma connect_to_tv_returns_at_first_registration_witness :
  (LGTVControl.connect_to_tv tv_third_time (Some "192.168.1.5") 3).2
  = inr (Some (LGTVControl.WebOSClient (Some "192.168.1.5"))).
Proof.
  apply (connect_to_tv_returns_at_first_registration tv_third_time
           (Some "192.168.1.5") ∅ 2 3).
  - reflexivity.
  - intros j Hj. destruct j as [|[|j]]; [reflexivity|reflexivity|lia].
  - reflexivity.
Defined.

(** X23. [connect_to_tv] returns only a registered client.  Whenever it
    returns, what it returns is the client of [TV_IP], and the last two
    things it did were to print "Registration successful!" and to write the
    store, which succeeded; it never returns after a failed pass. *)
Theorem connect_to_tv_returns_after_store_written
    (env : LGTVControl.ConnectEnv) (tv_ip : option string) (fuel : nat)
    (client : LGTVControl.Client) :
  (LGTVControl.connect_to_tv env tv_ip fuel).2 = inr (Some client) ->
  client = LGTVControl.WebOSClient tv_ip ∧
  ∃ before written pass,
    (LGTVControl.connect_to_tv env tv_ip fuel).1
    = before ++ [LGTVControl.Printed "Registration successful!";
                 LGTVControl.Store_written written] ∧
    (pass < fuel)%nat ∧
    LGTVControl.write_store (LGTVControl.attempts env pass) written = inr ().
Proof. apply connect_to_tv_returned. Qed.

Lemma connect_to_tv_returns_after_store_written_witness :
  LGTVControl.WebOSClient (Some "192.168.1.5")
  = LGTVControl.WebOSClient (Some "192.168.1.5").
Proof.
  refine (proj1 (connect_to_tv_returns_after_store_written tv_third_time
                   (Some "192.168.1.5") 3
                   (LGTVControl.WebOSClient (Some "192.168.1.5")) _)).
  reflexivity.
Defined.

(** X24. The store file.  A missing file is an empty store, with which
    [connect_to_tv] goes on; any other failure to read it (no permission, no
    valid JSON) leaves [connect_to_tv] at once with that exception, before
    any connection to the television. *)
Theorem connect_to_tv_store_file
    (env : LGTVControl.ConnectEnv) (tv_ip : option string) (fuel : nat)
    (e : exn) :
  LGTVControl.read_store env = inl e ->
  match e with
  | FileNotFoundError _ =>
      LGTVControl.load_store env = ([LGTVControl.Store_read], inr ∅) ∧
      LGTVControl.connect_to_tv env tv_ip fuel
      = (LGTVControl.Store_read
           :: (LGTVControl.connect_loop env (LGTVControl.WebOSClient tv_ip)
                 ∅ fuel 0).1,
         (LGTVControl.connect_loop env (LGTVControl.WebOSClient tv_ip)
            ∅ fuel 0).2)
  | _ =>
      LGTVControl.connect_to_tv env tv_ip fuel
      = ([LGTVControl.Store_read], inl e)
  end.
Proof.
  intros Hread. unfold LGTVControl.connect_to_tv, LGTVControl.load_store.
  rewrite Hread.
  destruct e; simpl; try done.
  split; [done|].
  by destruct (LGTVControl.connect_loop env _ ∅ fuel 0).
Qed.

Lemma connect_to_tv_store_file_witness :
  LGTVControl.load_store tv_third_time = ([LGTVControl.Store_read], inr ∅).
Proof.
  exact (proj1 (connect_to_tv_store_file tv_third_time None 0
                  (FileNotFoundError "lgtv_store.json") eq_refl)).
Defined.

(** X25. [main] wakes, registers, then launches.  When [LGTV_MAC] or
    [LGTV_IP] is unset or empty, [main] only prints the request to set them:
    no packet, no connection, no launch.  Otherwise, an application is
    launched only after the wake-up call was made and the store was written
    successfully: every launch in the trace of [main] stands after a
    successful write of the store. *)
Theorem main_launches_only_after_registration
    (unicode_lower : string -> string) (tv_mac tv_ip : option string)
    (wol : LGTVControl.WolEnv) (tv : LGTVControl.ConnectEnv)
    (apps : LGTVControl.AppEnv) (fuel : nat) (app_name : string) :
  let run :=
    LGTVControl.main unicode_lower tv_mac tv_ip wol tv apps fuel app_name in
  let launching := LGTVControl.launch_app unicode_lower apps app_name in
  (truthy tv_mac = false ∨ truthy tv_ip = false ->
   run
   = ([LGTVControl.Printed
         "Please set the LGTV_MAC and LGTV_IP environment variables."],
      inr (Some ()))) ∧
  (∀ app,
     LGTVControl.Launch app ∈ run.1 ->
     ∃ before written pass,
       run.1
       = (LGTVControl.send_wol wol (default "" tv_mac)).1
         ++ before
         ++ [LGTVControl.Printed "Registration successful!";
             LGTVControl.Store_written written]
         ++ launching.1 ∧
       LGTVControl.write_store (LGTVControl.attempts tv pass) written
       = inr () ∧
       LGTVControl.Launch app ∈ launching.1).
Proof.
  intros run launching. unfold run, launching. split.
  - intros H. unfold LGTVControl.main.
    destruct H as [-> | ->]; [done|]. by rewrite orb_true_r.
  - intros app. unfold LGTVControl.main.
    destruct (negb (truthy tv_mac) || negb (truthy tv_ip)).
    { simpl. intros Hin.
      apply list_elem_of_singleton in Hin. discriminate. }
    rewrite bind_calls, send_wol_total, bind_calls.
    pose proof (send_wol_no_launch wol (default "" tv_mac)) as Hnw.
    pose proof (connect_to_tv_no_launch tv tv_ip fuel) as Hnc.
    rewrite Forall_forall in Hnw, Hnc.
    intros Hin. apply elem_of_app in Hin as [Hin|Hin];
      [by destruct (Hnw _ Hin)|].
    apply elem_of_app in Hin as [Hin|Hin]; [by destruct (Hnc _ Hin)|].
    destruct (LGTVControl.connect_to_tv tv tv_ip fuel).2
      as [e|[client|]] eqn:Hr;
      [by apply elem_of_nil in Hin| |by apply elem_of_nil in Hin].
    destruct (connect_to_tv_returned tv tv_ip fuel client Hr)
      as (_ & before & written & pass & -> & _ & Hw).
    rewrite bind_calls in Hin |- *.
    assert (∀ r : Py.result unit,
              match r with
              | inl _ => []
              | inr _ => (@ret LGTVControl.Event _ (Some ())).1
              end = []) as Hnil by (by intros [|]).
    rewrite Hnil, app_nil_r in Hin |- *.
    exists before, written, pass. split; [|done].
    by rewrite <- !app_assoc.
Qed.

Lemma main_launches_only_after_registration_witness :
  LGTVControl.main lower None (Some "192.168.1.5") wol_env_ok tv_third_time
    app_env_ok 3 "plex"
  = ([LGTVControl.Printed
        "Please set the LGTV_MAC and LGTV_IP environment variables."],
     inr (Some ())).
Proof.
  refine (proj1 (main_launches_only_after_registration lower None
                   (Some "192.168.1.5") wol_env_ok tv_third_time app_env_ok
                   3 "plex") _).
  left. reflexivity.
Defined.
